(** * getpinfo: a single-slot request/response channel over a debugfs file

    Shallow embedding of [getpinfo.c]: the [write] handler [getpinfo_call],
    the [read] handler [getpinfo_return], and the C library and kernel
    primitives the two handlers rely on.

    Conventions
    - a C [char] is an [ascii]; a character array is a [list ascii] whose
      length is the size of the object; a store or a copy that leaves the
      object yields [None], as does a string function that runs off an
      array without terminator (C gives such a program no meaning);
    - integers are [Z]; a conversion to a C type is written out with the
      wrap-around of that type ([to_int], [to_size_t], ...);
    - the globals [call_task] and [respbuf] are threaded as a record, a
      pointer and the block it points to being one [option];
    - what the handlers cannot control -- the result of [kmalloc], the
      prior contents of fresh memory and of the stack arrays, how much of a
      user mapping is accessible -- is an explicit argument;
    - [MAX_CALL], [MAX_LINE] and [MAX_RESP] are defined in [getpinfo.h] and
      are parameters here;
    - [printk] only writes to the log and is left out. *)

From stdpp Require Import base option list strings gmap.
From Stdlib Require Import ZArith Lia Ascii.

Local Open Scope Z_scope.

(** ** C integers *)

Module CInt.

Definition wrap_unsigned (w z : Z) : Z := z mod 2 ^ w.
Definition wrap_signed (w z : Z) : Z := (z + 2 ^ (w - 1)) mod 2 ^ w - 2 ^ (w - 1).

Definition to_int : Z -> Z := wrap_signed 32.
Definition to_long : Z -> Z := wrap_signed 64.
Definition to_uint : Z -> Z := wrap_unsigned 32.
Definition to_size_t : Z -> Z := wrap_unsigned 64.

(* errno values of the Linux headers *)
Definition EAGAIN : Z := 11.
Definition EINVAL : Z := 22.
Definition ENOSPC : Z := 28.

End CInt.
Export CInt.

(** ** Character arrays and the string functions used by the module *)

Module CStr.

Definition buffer := list ascii.

Definition NUL : ascii := Ascii.zero.
Definition LF : ascii := ascii_of_nat 10.
Definition TAB : ascii := ascii_of_nat 9.

(** Characters of a C string literal, with the escapes [\n], [\t] and
    [\\] read the way the C compiler reads them. *)
Fixpoint unescape (esc : bool) (s : string) : list ascii :=
  match s with
  | EmptyString => []
  | String c s' =>
      if esc then
        (if Ascii.eqb c "n" then LF
         else if Ascii.eqb c "t" then TAB
         else c) :: unescape false s'
      else if Ascii.eqb c "\" then unescape true s'
      else c :: unescape false s'
  end.

Definition chars (s : string) : list ascii := unescape false s.

(** The array a string literal denotes: its characters and a terminator. *)
Definition lit (s : string) : buffer := chars s ++ [NUL].

(** Memory whose contents nobody initialised: [n] bytes, arbitrary. *)
Definition uninit (g : nat -> ascii) (n : nat) : buffer := g <$> seq 0 n.

(** [p[i] = c] for an index of type [size_t]. *)
Definition store (b : buffer) (i : Z) (c : ascii) : option buffer :=
  if (0 <=? i) && (i <? Z.of_nat (length b))
  then Some (<[Z.to_nat i := c]> b)
  else None.

(** Overwrite [length data] bytes from offset [off]. *)
Definition write_at (b : buffer) (off : nat) (data : list ascii) : option buffer :=
  if (off + length data <=? length b)%nat
  then Some (take off b ++ data ++ drop (off + length data) b)
  else None.

(** The string held in an array: the bytes before the first terminator;
    [None] when the array holds no terminator (the scan leaves it). *)
Fixpoint c_str (b : buffer) : option (list ascii) :=
  match b with
  | [] => None
  | c :: b' => if Ascii.eqb c NUL then Some [] else (c ::.) <$> c_str b'
  end.

Definition strlen (b : buffer) : option Z :=
  (fun s => Z.of_nat (length s)) <$> c_str b.

Definition strcpy (dst src : buffer) : option buffer :=
  s ← c_str src; write_at dst 0 (s ++ [NUL]).

Definition strcat (dst src : buffer) : option buffer :=
  s ← c_str src; d ← c_str dst; write_at dst (length d) (s ++ [NUL]).

Definition code (c : ascii) : Z := Z.of_nat (nat_of_ascii c).

(** Zero when the two strings are equal; the module uses nothing else of
    the result. *)
Fixpoint strcmp (a b : buffer) : option Z :=
  match a, b with
  | x :: a', y :: b' =>
      if Ascii.eqb x y
      then (if Ascii.eqb x NUL then Some 0 else strcmp a' b')
      else Some (code x - code y)
  | _, _ => None
  end.

End CStr.
Export CStr.

(** ** The conversions of [sprintf] the module uses *)

Module Printf.

Inductive arg :=
| AInt (z : Z)        (* int *)
| ALong (z : Z)       (* long *)
| AUInt (z : Z)       (* unsigned int *)
| AStr (s : buffer).  (* char * *)

Definition digit_char (d : Z) : ascii :=
  ascii_of_nat (Z.to_nat (if d <? 10 then 48 + d else 87 + d)).

(** Digits of a non-negative number, least significant produced first. *)
Fixpoint digits_aux (base : Z) (fuel : nat) (n : Z) (acc : list ascii) : list ascii :=
  match fuel with
  | O => acc
  | S f =>
      let acc' := digit_char (n mod base) :: acc in
      if n <? base then acc' else digits_aux base f (n / base) acc'
  end.

(* 64 digits are enough for any 64-bit value in any base *)
Definition digits (base n : Z) : list ascii := digits_aux base 64 n [].

Definition pad (c : ascii) (width : nat) (s : list ascii) : list ascii :=
  replicate (width - length s) c ++ s.

Definition fmt_signed (zero : bool) (width : nat) (z : Z) : list ascii :=
  let ds := digits 10 (Z.abs z) in
  if z <? 0 then
    if zero then "-"%char :: pad "0" (width - 1) ds
    else pad " " width ("-"%char :: ds)
  else pad (if zero then "0" else " ")%char width ds.

Definition fmt_hex (zero : bool) (width : nat) (z : Z) : list ascii :=
  pad (if zero then "0" else " ")%char width (digits 16 z).

(** Where the scan of the format stands: in literal text, or inside a
    conversion with the zero flag, the field width and the [l] modifier
    read so far. *)
Inductive mode :=
| Text
| Conv (zero : bool) (width : nat) (long : bool).

Definition is_digit (c : ascii) : bool :=
  (48 <=? nat_of_ascii c)%nat && (nat_of_ascii c <=? 57)%nat.

Fixpoint vformat (fmt : list ascii) (m : mode) (args : list arg) : option (list ascii) :=
  match fmt with
  | [] => match m with Text => Some [] | Conv _ _ _ => None end
  | c :: fmt' =>
      match m with
      | Text =>
          if Ascii.eqb c "%" then vformat fmt' (Conv false 0 false) args
          else (c ::.) <$> vformat fmt' Text args
      | Conv zero width long =>
          if Ascii.eqb c "0" && Nat.eqb width 0 && negb zero && negb long
          then vformat fmt' (Conv true 0 long) args
          else if is_digit c && negb long
          then vformat fmt' (Conv zero (10 * width + (nat_of_ascii c - 48)) long) args
          else if Ascii.eqb c "l" && negb long
          then vformat fmt' (Conv zero width true) args
          else if Ascii.eqb c "d" then
            match args, long with
            | AInt z :: args', false | ALong z :: args', true =>
                (fmt_signed zero width z ++.) <$> vformat fmt' Text args'
            | _, _ => None
            end
          else if Ascii.eqb c "x" then
            match args, long with
            | AUInt z :: args', false =>
                (fmt_hex zero width z ++.) <$> vformat fmt' Text args'
            | _, _ => None
            end
          else if Ascii.eqb c "s" then
            match args, long with
            | AStr b :: args', false =>
                s ← c_str b;
                (fun rest => pad " " width s ++ rest) <$> vformat fmt' Text args'
            | _, _ => None
            end
          else None
      end
  end.

Definition sprintf (dst fmt : buffer) (args : list arg) : option buffer :=
  f ← c_str fmt; out ← vformat f Text args; write_at dst 0 (out ++ [NUL]).

End Printf.
Export Printf.

(** ** What the handlers see of the kernel *)

Module Kernel.

Definition task_ptr := positive.  (* a non-null [struct task_struct *] *)
Definition pid_ptr := positive.   (* a non-null [struct pid *] *)

(** The fields of [struct task_struct] the module reads. *)
Record task_struct := {
  state : Z;                       (* volatile long *)
  flags : Z;                       (* unsigned int *)
  normal_prio : Z;                 (* int *)
  real_parent : option task_ptr
}.

Record kernel := {
  current : task_ptr;
  deref : task_ptr -> task_struct;
  get_task_pid : task_ptr -> option pid_ptr;   (* with PIDTYPE_PID *)
  pid_vnr : pid_ptr -> Z
}.

(** [kmalloc(size, GFP_ATOMIC)]: [heap] is [None] when no memory is to be
    had, and otherwise the contents the fresh block happens to have. *)
Definition kmalloc (heap : option (nat -> ascii)) (size : nat) : option buffer :=
  (fun g => uninit g size) <$> heap.

(** [copy_from_user(dst, src, n)]: [src] is the readable part of the user
    mapping.  What cannot be read is zero-filled in [dst]; the result
    carries the number of bytes not copied. *)
Definition copy_from_user (dst : buffer) (src : list ascii) (n : Z) : option (buffer * Z) :=
  let got := take (Z.to_nat n) src in
  let missing := (Z.to_nat n - length got)%nat in
  b ← write_at dst 0 (got ++ replicate missing NUL);
  Some (b, Z.of_nat missing).

(** [copy_to_user(dst, src, n)]: [room] is the number of bytes the user
    mapping accepts.  Yields the bytes that reached user space and the
    number of bytes not copied. *)
Definition copy_to_user (room : nat) (src : buffer) (n : Z) : option (list ascii * Z) :=
  if (0 <=? n) && (n <=? Z.of_nat (length src))
  then let k := Nat.min (Z.to_nat n) room in Some (take k src, n - Z.of_nat k)
  else None.

End Kernel.
Export Kernel.

(** ** The module *)

(** The constants of [getpinfo.h]. *)
Record limits := {
  MAX_CALL : nat;
  MAX_LINE : nat;
  MAX_RESP : nat
}.

(** The two globals shared by the handlers, and the preemption counter of
    the executing CPU. *)
Record world := {
  call_task : option task_ptr;
  respbuf : option buffer;
  preempt_count : nat
}.

Definition set_call_task (t : option task_ptr) (w : world) : world :=
  {| call_task := t; respbuf := respbuf w; preempt_count := preempt_count w |}.

Definition set_respbuf (b : option buffer) (w : world) : world :=
  {| call_task := call_task w; respbuf := b; preempt_count := preempt_count w |}.

Definition preempt_disable (w : world) : world :=
  {| call_task := call_task w; respbuf := respbuf w;
     preempt_count := S (preempt_count w) |}.

Definition preempt_enable (w : world) : world :=
  {| call_task := call_task w; respbuf := respbuf w;
     preempt_count := pred (preempt_count w) |}.

(** State at module load: both globals are zero-initialised. *)
Definition loaded : world :=
  {| call_task := None; respbuf := None; preempt_count := 0 |}.

(** Prior contents of the two stack arrays of [getpinfo_call]. *)
Record frame := {
  callbuf_init : nat -> ascii;
  resp_line_init : nat -> ascii
}.

(** What a [write] leaves behind: the value returned, [*ppos], the globals. *)
Record written := {
  w_ret : Z;
  w_pos : Z;
  w_world : world
}.

(** What a [read] leaves behind: the value returned, [*ppos], the bytes
    that reached the user buffer, the globals. *)
Record fetched := {
  r_ret : Z;
  r_pos : Z;
  r_user : list ascii;
  r_world : world
}.

Section Handlers.

Context (L : limits).

Definition getpinfo_call (k : kernel) (heap : option (nat -> ascii)) (stack : frame)
    (buf : list ascii) (count : Z) (ppos : Z) (w : world) : option written :=
  let callbuf := uninit (callbuf_init stack) (MAX_CALL L) in
  let resp_line := uninit (resp_line_init stack) (MAX_LINE L) in
  if Z.of_nat (MAX_CALL L) <=? count then              (* count >= MAX_CALL *)
    Some {| w_ret := - EINVAL; w_pos := ppos; w_world := w |}
  else
  let w := preempt_disable w in
  match call_task w with
  | Some _ =>                                           (* call_task != NULL *)
      Some {| w_ret := - EAGAIN; w_pos := ppos; w_world := preempt_enable w |}
  | None =>
  match kmalloc heap (MAX_RESP L) with
  | None =>                                             (* respbuf == NULL *)
      Some {| w_ret := - ENOSPC; w_pos := ppos;
              w_world := preempt_enable (set_respbuf None w) |}
  | Some b =>
      b ← strcpy b (lit EmptyString);
      let w := set_call_task (Some (current k)) (set_respbuf (Some b) w) in
      '(callbuf, _) ← copy_from_user callbuf buf count;
      callbuf ← store callbuf (Z.of_nat (MAX_CALL L) - 1) NUL;
      cmp ← strcmp callbuf (lit "getpinfo");
      if negb (cmp =? 0) then
        b ← strcpy b (lit "Failed: invalid operation\n");
        Some {| w_ret := count; w_pos := ppos;
                w_world := preempt_enable (set_respbuf (Some b) w) |}
      else
        b ← sprintf b (lit "Success:\n") [];
        t ← call_task w;                      (* call_task is dereferenced *)
        let cur_pid :=
          match get_task_pid k t with
          | Some pid_p => to_int (pid_vnr k pid_p)
          | None => 0
          end in
        let task_state := to_long (state (deref k t)) in
        let task_flags := to_uint (flags (deref k t)) in
        let task_cur_prio := to_int (normal_prio (deref k t)) in
        let parent_pid :=
          match call_task w with
          | None => 0
          | Some t =>
              match real_parent (deref k t) with
              | None => 0
              | Some p =>
                  match get_task_pid k p with
                  | Some pid_p => to_int (pid_vnr k pid_p)
                  | None => 0
                  end
              end
          end in
        resp_line ← sprintf resp_line
          (lit "\tCurrent PID %d\n\tparent %d\n\tstate %ld\n\tflags %08x\n\tpriority %d\n\tcommand %s\n")
          [AInt cur_pid; AInt parent_pid; ALong task_state; AUInt task_flags;
           AInt task_cur_prio; AStr callbuf];
        b ← strcat b resp_line;
        Some {| w_ret := count; w_pos := 0;
                w_world := preempt_enable (set_respbuf (Some b) w) |}
  end
  end.

Definition getpinfo_return (k : kernel) (room : nat) (count : Z) (ppos : Z)
    (w : world) : option fetched :=
  let w := preempt_disable w in
  if negb (bool_decide (call_task w = Some (current k))) then
    Some {| r_ret := 0; r_pos := ppos; r_user := []; r_world := preempt_enable w |}
  else
    b ← respbuf w;                            (* respbuf is dereferenced *)
    n ← strlen b;
    let rc := to_int (n + 1) in
    '(out, rc) ←
      (if count <? to_size_t rc then
         b ← store b (to_size_t (count - 1)) NUL;
         '(out, rest) ← copy_to_user room b count;
         Some (out, to_int rest)
       else
         '(out, rest) ← copy_to_user room b (to_size_t rc);
         Some (out, to_int rest));
    let w := set_call_task None (set_respbuf None w) in   (* after kfree *)
    Some {| r_ret := rc; r_pos := 0; r_user := out; r_world := preempt_enable w |}.

End Handlers.

(** An instance of the limits on which the closed examples are run. *)
Definition sample_limits : limits :=
  {| MAX_CALL := 100; MAX_LINE := 500; MAX_RESP := 1000 |}.

Definition sample_task : task_struct :=
  {| state := 0; flags := 4194624; normal_prio := 120; real_parent := Some 7%positive |}.

(** A kernel in which task [cur] runs; every task has pid = its handle. *)
Definition sample_kernel (cur : task_ptr) : kernel :=
  {| current := cur; deref := fun _ => sample_task;
     get_task_pid := fun t => Some t; pid_vnr := fun p => Z.pos p |}.

Definition task_A : task_ptr := 5%positive.
Definition task_B : task_ptr := 9%positive.

Definition junk (c : ascii) : frame :=
  {| callbuf_init := fun _ => c; resp_line_init := fun _ => c |}.

(** A stack on which an earlier call left its call string: [callbuf]
    starts with ["getpinfo"] and its terminator. *)
Definition stale_verb : frame :=
  {| callbuf_init := fun i => nth i (lit "getpinfo") "y"%char;
     resp_line_init := fun _ => "y"%char |}.

(** ** Loading and unloading *)

(** The debug file system, as far as the module uses it: nodes by dentry.
    The data pointer given to the file ([&file_value]) is used by nothing
    and is left out. *)
Module Debugfs.

Definition dentry := positive.  (* a non-null [struct dentry *] *)

(** The handlers a file is bound to. *)
Record file_operations := {
  read : kernel -> nat -> Z -> Z -> world -> option fetched;
  write : kernel -> option (nat -> ascii) -> frame -> list ascii -> Z -> Z ->
          world -> option written
}.

Inductive node :=
| Directory (name : string) (parent : option dentry)
| File (name : string) (mode : Z) (parent : option dentry) (fops : file_operations).

Abbreviation tree := (gmap dentry node).

(** [debugfs_create_dir(name, parent)]: [fresh] is the dentry the kernel
    makes for the node, [None] when it makes none. *)
Definition debugfs_create_dir (name : string) (parent : option dentry)
    (fresh : option dentry) (t : tree) : option dentry * tree :=
  match fresh with
  | Some d => (Some d, <[d := Directory name parent]> t)
  | None => (None, t)
  end.

(** [debugfs_create_file(name, mode, parent, data, fops)]. *)
Definition debugfs_create_file (name : string) (mode : Z) (parent : option dentry)
    (fops : file_operations) (fresh : option dentry) (t : tree)
    : option dentry * tree :=
  match fresh with
  | Some d => (Some d, <[d := File name mode parent fops]> t)
  | None => (None, t)
  end.

(** [debugfs_remove(dentry)]; a null dentry is ignored. *)
Definition debugfs_remove (d : option dentry) (t : tree) : tree :=
  match d with
  | Some d => delete d t
  | None => t
  end.

End Debugfs.
Export Debugfs.

Definition ENODEV : Z := 19.

(* 0666 *)
Definition mode_rw_all : Z := 6 * 64 + 6 * 8 + 6.

(** The two names of [getpinfo.h]. *)
Record node_names := {
  dir_name : string;
  file_name : string
}.

(** The globals [dir] and [file]. *)
Record nodes := {
  dir : option dentry;
  file : option dentry
}.

Definition my_fops (L : limits) : file_operations :=
  {| read := getpinfo_return; write := getpinfo_call L |}.

(** [fresh_dir] and [fresh_file] are what the two creations yield.  The
    result is the value returned, the globals, and the file system. *)
Definition getpinfo_module_init (N : node_names) (L : limits)
    (fresh_dir fresh_file : option dentry) (g : nodes) (t : tree)
    : Z * nodes * tree :=
  let '(d, t) := debugfs_create_dir (dir_name N) None fresh_dir t in
  let g := {| dir := d; file := file g |} in
  match dir g with
  | None => (- ENODEV, g, t)
  | Some _ =>
      let '(f, t) :=
        debugfs_create_file (file_name N) mode_rw_all (dir g) (my_fops L)
          fresh_file t in
      let g := {| dir := dir g; file := f |} in
      match file g with
      | None => (- ENODEV, g, t)
      | Some _ => (0, g, t)
      end
  end.

(** The result is the file system and the blocks handed to [kfree]. *)
Definition getpinfo_module_exit (g : nodes) (w : world) (t : tree)
    : tree * list buffer :=
  let t := debugfs_remove (file g) t in
  let t := debugfs_remove (dir g) t in
  match respbuf w with
  | Some b => (t, [b])
  | None => (t, [])
  end.

(** * Vocabulary of the statements *)

(** A string without a terminator inside. *)
Definition no_nul (s : list ascii) : Prop := Forall (fun c => c <> NUL) s.

(** One of [0-9a-f]. *)
Definition lower_hex (c : ascii) : bool :=
  is_digit c || ((97 <=? nat_of_ascii c)%nat && (nat_of_ascii c <=? 102)%nat).

(** The conversions as the format of the module uses them. *)
Definition decimal (z : Z) : list ascii := fmt_signed false 0 z.
Definition hex8 (z : Z) : list ascii := fmt_hex true 8 z.

(** A decimal field is an optional sign and digits. *)
Definition dec_char (c : ascii) : Prop := is_digit c = true \/ c = "-"%char.

(** Neither a terminator nor a newline. *)
Definition plain (c : ascii) : Prop := c <> NUL /\ c <> LF.

(** The payloads, as the specification words them.  One
    [<TAB>key value] line of the report: *)
Definition field (key : string) (value : list ascii) : list ascii :=
  TAB :: chars key ++ " "%char :: value ++ [LF].

Arguments field : simpl never.

(** Identifier of a task in the caller's namespace; zero when the task has
    no [struct pid]. *)
Definition pid_of (k : kernel) (t : task_ptr) : Z :=
  match get_task_pid k t with
  | Some pid_p => to_int (pid_vnr k pid_p)
  | None => 0
  end.

(** Identifier of the parent, zero when no parent is observable. *)
Definition parent_of (k : kernel) (t : task_ptr) : Z :=
  match real_parent (deref k t) with
  | Some p => pid_of k p
  | None => 0
  end.

Definition verb : list ascii := chars "getpinfo".

Definition success_fields (k : kernel) : list (list ascii) :=
  let t := current k in
  [ field "Current PID" (decimal (pid_of k t));
    field "parent" (decimal (parent_of k t));
    field "state" (decimal (to_long (state (deref k t))));
    field "flags" (hex8 (to_uint (flags (deref k t))));
    field "priority" (decimal (to_int (normal_prio (deref k t))));
    field "command" verb ].

Definition success_payload (k : kernel) : list ascii :=
  chars "Success:\n" ++ concat (success_fields k).

Definition failure_payload : list ascii := chars "Failed: invalid operation\n".

(** The call string the handler compares: the local array after the copy
    from user space and the forced terminator in its last byte. *)
Definition received (L : limits) (stack : frame) (buf : list ascii) (count : Z)
    : option buffer :=
  '(callbuf, _) ← copy_from_user (uninit (callbuf_init stack) (MAX_CALL L)) buf count;
  store callbuf (Z.of_nat (MAX_CALL L) - 1) NUL.

(** The slot as the specification describes it. *)
Definition occupied_by (t : task_ptr) (b : buffer) (w : world) : world :=
  {| call_task := Some t; respbuf := Some b; preempt_count := preempt_count w |}.

Definition emptied (w : world) : world :=
  {| call_task := None; respbuf := None; preempt_count := preempt_count w |}.

(** Every way a [write] can complete.  [call_outcome L k heap stack buf
    count ppos w r] lists, for each exit of [getpinfo_call], the condition
    under which it is taken and what it leaves behind. *)
Inductive call_outcome (L : limits) (k : kernel) (heap : option (nat -> ascii))
    (stack : frame) (buf : list ascii) (count ppos : Z) (w : world) : written -> Prop :=
| call_too_long :
    Z.of_nat (MAX_CALL L) <= count ->
    call_outcome L k heap stack buf count ppos w
      {| w_ret := - EINVAL; w_pos := ppos; w_world := w |}
| call_busy :
    count < Z.of_nat (MAX_CALL L) -> call_task w <> None ->
    call_outcome L k heap stack buf count ppos w
      {| w_ret := - EAGAIN; w_pos := ppos; w_world := w |}
| call_no_memory :
    count < Z.of_nat (MAX_CALL L) -> call_task w = None -> heap = None ->
    call_outcome L k heap stack buf count ppos w
      {| w_ret := - ENOSPC; w_pos := ppos; w_world := emptied w |}
| call_unknown b cb :
    count < Z.of_nat (MAX_CALL L) -> call_task w = None -> heap <> None ->
    received L stack buf count = Some cb -> c_str cb <> Some verb ->
    length b = MAX_RESP L -> c_str b = Some failure_payload ->
    call_outcome L k heap stack buf count ppos w
      {| w_ret := count; w_pos := ppos; w_world := occupied_by (current k) b w |}
| call_report b cb :
    count < Z.of_nat (MAX_CALL L) -> call_task w = None -> heap <> None ->
    received L stack buf count = Some cb -> c_str cb = Some verb ->
    length b = MAX_RESP L -> c_str b = Some (success_payload k) ->
    call_outcome L k heap stack buf count ppos w
      {| w_ret := count; w_pos := 0; w_world := occupied_by (current k) b w |}.

(** The lines of a text; the last element is what follows the final
    newline. *)
Fixpoint lines (s : list ascii) : list (list ascii) :=
  match s with
  | [] => [[]]
  | c :: s' =>
      if Ascii.eqb c LF then [] :: lines s'
      else match lines s' with
           | l :: ls => (c :: l) :: ls
           | [] => [[c]]
           end
  end.

(** The value a digit string denotes. *)
Definition digit_value (c : ascii) : Z :=
  let n := Z.of_nat (nat_of_ascii c) in if n <=? 57 then n - 48 else n - 87.

Definition number (base : Z) (s : list ascii) : Z :=
  fold_left (fun a c => a * base + digit_value c) s 0.

(** A response as the module produces them. *)
Definition complete_response (s : list ascii) : Prop :=
  s = failure_payload \/ exists k, s = success_payload k.

(** The states the module can be in: the state at load, and whatever a
    completed [write] or [read] leaves. *)
Inductive reachable (L : limits) : world -> Prop :=
| reach_loaded : reachable L loaded
| reach_call k heap stack buf count ppos w r :
    reachable L w ->
    getpinfo_call L k heap stack buf count ppos w = Some r ->
    reachable L (w_world r)
| reach_return k room count ppos w f :
    reachable L w ->
    getpinfo_return k room count ppos w = Some f ->
    reachable L (r_world f).

(** A sequence of fetches, each with its own running task, user buffer and
    capacity, run one after the other. *)
Record fetch := {
  f_kernel : kernel;
  f_room : nat;
  f_count : Z;
  f_pos : Z
}.

Fixpoint fetches (fs : list fetch) (w : world) : option world :=
  match fs with
  | [] => Some w
  | f :: fs' =>
      r ← getpinfo_return (f_kernel f) (f_room f) (f_count f) (f_pos f) w;
      fetches fs' (r_world r)
  end.

(** Empty with no buffer, or occupied with a buffer that holds a
    terminated response. *)
Definition slot_inv (w : world) : Prop :=
  match call_task w, respbuf w with
  | None, None => True
  | Some _, Some b => exists s, c_str b = Some s /\ complete_response s
  | _, _ => False
  end.

(** * Properties *)

Example chars_escapes : chars "a\tb\n" = ["a"%char; TAB; "b"%char; LF].
Proof. reflexivity. Qed.

Example sprintf_flags :
  vformat (chars "flags %08x\n") Text [AUInt 4194624] = Some (chars "flags 00400140\n").
Proof. reflexivity. Qed.

Example sprintf_negative :
  vformat (chars "%d %ld") Text [AInt (-42); ALong 0] = Some (chars "-42 0").
Proof. reflexivity. Qed.

(** ** Arrays and strings *)

Section StringFacts.

Implicit Types (b dst src : buffer) (s data : list ascii) (c : ascii).

Lemma c_str_app_nul s rest : no_nul s -> c_str (s ++ NUL :: rest) = Some s.
Proof.
  induction 1 as [|c s Hc _ IH]; simpl; [reflexivity|].
  destruct (Ascii.eqb_spec c NUL) as [->|_]; [contradiction|].
  now rewrite IH.
Qed.

Lemma c_str_inv b s :
  c_str b = Some s -> no_nul s /\ exists rest, b = s ++ NUL :: rest.
Proof.
  revert s. induction b as [|c b IH]; simpl; intros s; [discriminate|].
  destruct (Ascii.eqb_spec c NUL) as [->|Hc].
  - intros [= <-]. split; [constructor|]. now exists b.
  - destruct (c_str b) as [s'|]; simpl; [|discriminate].
    intros [= <-]. destruct (IH s' eq_refl) as [Hs [rest ->]].
    split; [now constructor|]. now exists rest.
Qed.

Lemma c_str_length b s : c_str b = Some s -> (length s < length b)%nat.
Proof.
  intros H. apply c_str_inv in H as [_ [rest ->]].
  rewrite length_app. simpl. lia.
Qed.

Lemma write_at_length b off data b' :
  write_at b off data = Some b' -> length b' = length b.
Proof.
  unfold write_at. destruct (Nat.leb_spec (off + length data) (length b)); [|discriminate].
  intros [= <-]. rewrite !length_app, length_take, length_drop. lia.
Qed.

Lemma write_at_0 b data :
  (length data <= length b)%nat ->
  write_at b 0 data = Some (data ++ drop (length data) b).
Proof.
  intros H. unfold write_at. simpl.
  destruct (Nat.leb_spec (length data) (length b)); [reflexivity | lia].
Qed.

Lemma write_at_inv b off data b' :
  write_at b off data = Some b' ->
  (off + length data <= length b)%nat /\
  b' = take off b ++ data ++ drop (off + length data) b.
Proof.
  unfold write_at. destruct (Nat.leb_spec (off + length data) (length b)); [|discriminate].
  now intros [= <-].
Qed.

(** Writing a terminated string at the start of an array leaves that
    string in the array. *)
Lemma write_string_0 b s b' :
  no_nul s -> write_at b 0 (s ++ [NUL]) = Some b' -> c_str b' = Some s.
Proof.
  intros Hs H. apply write_at_inv in H as [_ ->]. simpl.
  rewrite <- app_assoc. simpl. now apply c_str_app_nul.
Qed.

Lemma strcpy_inv dst src b' :
  strcpy dst src = Some b' ->
  exists s, c_str src = Some s /\ c_str b' = Some s /\ length b' = length dst.
Proof.
  unfold strcpy. destruct (c_str src) as [s|] eqn:Hs; simpl; [|discriminate].
  intros H. exists s. split; [reflexivity|]. split.
  - apply c_str_inv in Hs as [Hs _]. eapply write_string_0; eauto.
  - eapply write_at_length; eauto.
Qed.

Lemma strcpy_fits dst src s :
  c_str src = Some s -> (length s < length dst)%nat ->
  exists b', strcpy dst src = Some b'.
Proof.
  intros Hs Hlen. unfold strcpy. rewrite Hs. simpl.
  rewrite write_at_0; [eauto|]. rewrite length_app. simpl. lia.
Qed.

(** Appending: the array then holds the old string followed by the new. *)
Lemma strcat_inv dst src b' :
  strcat dst src = Some b' ->
  exists d s, c_str dst = Some d /\ c_str src = Some s /\
              c_str b' = Some (d ++ s) /\ length b' = length dst.
Proof.
  unfold strcat.
  destruct (c_str src) as [s|] eqn:Hs; simpl; [|discriminate].
  destruct (c_str dst) as [d|] eqn:Hd; simpl; [|discriminate].
  intros H. exists d, s. repeat split; try reflexivity.
  - pose proof (write_at_length _ _ _ _ H) as Hlen.
    apply write_at_inv in H as [_ ->].
    apply c_str_inv in Hs as [Hs _].
    apply c_str_inv in Hd as [Hd [rest ->]].
    rewrite take_app_length.
    rewrite <- app_assoc. simpl. rewrite app_assoc.
    apply c_str_app_nul. now apply Forall_app.
  - eapply write_at_length; eauto.
Qed.

Lemma strcat_fits dst src d s :
  c_str dst = Some d -> c_str src = Some s ->
  (length d + length s < length dst)%nat ->
  exists b', strcat dst src = Some b'.
Proof.
  intros Hd Hs Hlen. unfold strcat. rewrite Hs, Hd. simpl.
  unfold write_at. rewrite length_app. simpl.
  destruct (Nat.leb_spec (length d + (length s + 1)) (length dst)); [eauto | lia].
Qed.

(** [strcmp] answers zero exactly when both arrays hold the same string. *)
Lemma strcmp_zero a b' :
  strcmp a b' = Some 0 -> exists s, c_str a = Some s /\ c_str b' = Some s.
Proof.
  revert b'. induction a as [|x a IH]; intros [|y b']; simpl; try discriminate.
  destruct (Ascii.eqb_spec x y) as [<-|Hxy].
  - destruct (Ascii.eqb_spec x NUL) as [->|_].
    + intros _. now exists [].
    + intros H. destruct (IH _ H) as [s [-> ->]]. now exists (x :: s).
  - intros [= H]. exfalso. apply Hxy. unfold code in H.
    assert (nat_of_ascii x = nat_of_ascii y) as E by lia.
    rewrite <- (ascii_nat_embedding x), <- (ascii_nat_embedding y). now rewrite E.
Qed.

Lemma strcmp_same a b' s :
  c_str a = Some s -> c_str b' = Some s -> strcmp a b' = Some 0.
Proof.
  revert b' s. induction a as [|x a IH]; intros [|y b'] s; simpl; try discriminate.
  destruct (Ascii.eqb_spec x NUL) as [->|Hx]; destruct (Ascii.eqb_spec y NUL) as [->|Hy].
  - reflexivity.
  - intros [= <-]. destruct (c_str b'); discriminate.
  - destruct (c_str a); simpl; [|discriminate]. intros [= <-]. discriminate.
  - destruct (c_str a) as [sa|] eqn:Ha; simpl; [|discriminate].
    destruct (c_str b') as [sb|] eqn:Hb; simpl; [|discriminate].
    intros [= <-] [= -> ->].
    rewrite Ascii.eqb_refl. destruct (Ascii.eqb_spec x NUL); [contradiction|].
    now apply (IH b' sa).
Qed.

Lemma strcmp_defined a b' sa sb :
  c_str a = Some sa -> c_str b' = Some sb -> exists r, strcmp a b' = Some r.
Proof.
  revert b' sa sb. induction a as [|x a IH]; intros [|y b'] sa sb; simpl; try discriminate.
  destruct (Ascii.eqb_spec x y) as [<-|Hxy]; [|eauto].
  destruct (Ascii.eqb_spec x NUL) as [->|Hx]; [eauto|].
  destruct (c_str a) as [sa'|] eqn:Ha; simpl; [|discriminate].
  destruct (c_str b') as [sb'|] eqn:Hb; simpl; [|discriminate].
  intros _ _. eapply IH; eauto.
Qed.

End StringFacts.

(** ** Number formatting *)

Section FormatFacts.

Lemma digit_char_dec d : 0 <= d < 10 -> is_digit (digit_char d) = true.
Proof.
  intros H.
  assert (d = 0 \/ d = 1 \/ d = 2 \/ d = 3 \/ d = 4 \/ d = 5 \/ d = 6 \/
          d = 7 \/ d = 8 \/ d = 9) as E by lia.
  repeat (destruct E as [-> | E]; [reflexivity|]). now subst.
Qed.

Lemma digit_char_hex d : 0 <= d < 16 -> lower_hex (digit_char d) = true.
Proof.
  intros H.
  assert (d = 0 \/ d = 1 \/ d = 2 \/ d = 3 \/ d = 4 \/ d = 5 \/ d = 6 \/
          d = 7 \/ d = 8 \/ d = 9 \/ d = 10 \/ d = 11 \/ d = 12 \/ d = 13 \/
          d = 14 \/ d = 15) as E by lia.
  repeat (destruct E as [-> | E]; [reflexivity|]). now subst.
Qed.

Lemma digits_aux_Forall (P : ascii -> Prop) base fuel n acc :
  1 < base -> (forall d, 0 <= d < base -> P (digit_char d)) ->
  0 <= n -> Forall P acc -> Forall P (digits_aux base fuel n acc).
Proof.
  intros Hb HP. revert n acc.
  induction fuel as [|fuel IH]; intros n acc Hn Hacc; simpl; [assumption|].
  assert (Forall P (digit_char (n mod base) :: acc)) as Hacc'.
  { constructor; [|assumption]. apply HP. apply Z.mod_pos_bound. lia. }
  destruct (n <? base); [assumption|].
  apply IH; [|assumption]. apply Z.div_pos; lia.
Qed.

Lemma digits_aux_length base fuel n acc (k : nat) :
  1 < base -> 0 <= n < base ^ Z.of_nat (S k) ->
  (length (digits_aux base fuel n acc) <= length acc + S k)%nat.
Proof.
  intros Hb. revert n acc k.
  induction fuel as [|fuel IH]; intros n acc k Hn; simpl; [lia|].
  destruct (Z.ltb_spec n base) as [Hlt|Hge]; [simpl; lia|].
  destruct k as [|k].
  { change (Z.of_nat 1) with 1 in Hn. rewrite Z.pow_1_r in Hn. lia. }
  specialize (IH (n / base) (digit_char (n mod base) :: acc) k).
  simpl length in IH. etransitivity; [apply IH|lia].
  split; [apply Z.div_pos; lia|].
  apply Z.div_lt_upper_bound; [lia|].
  replace (Z.of_nat (S (S k))) with (Z.succ (Z.of_nat (S k))) in Hn by lia.
  rewrite Z.pow_succ_r in Hn by lia. lia.
Qed.

Lemma pad_0 c s : pad c 0 s = s.
Proof. reflexivity. Qed.

Lemma pad_length c width s :
  (length s <= width)%nat -> length (pad c width s) = width.
Proof. intros H. unfold pad. rewrite length_app, length_replicate. lia. Qed.

Lemma pad_Forall (P : ascii -> Prop) c width s :
  P c -> Forall P s -> Forall P (pad c width s).
Proof.
  intros Hc Hs. unfold pad. apply Forall_app. split; [|assumption].
  now apply Forall_replicate.
Qed.

Lemma decimal_chars z : Forall dec_char (decimal z).
Proof.
  unfold decimal, fmt_signed.
  assert (Forall dec_char (digits 10 (Z.abs z))) as Hd.
  { apply digits_aux_Forall; [lia| |lia|constructor].
    intros d Hd. left. now apply digit_char_dec. }
  destruct (z <? 0); rewrite pad_0; [constructor; [now right | assumption] | assumption].
Qed.

Lemma decimal_length z (k : nat) :
  - 10 ^ Z.of_nat (S k) < z < 10 ^ Z.of_nat (S k) ->
  (length (decimal z) <= S (S k))%nat.
Proof.
  intros Hz. unfold decimal, fmt_signed.
  assert (length (digits 10 (Z.abs z)) <= S k)%nat as Hd.
  { apply (digits_aux_length 10 64 (Z.abs z) [] k); lia. }
  destruct (z <? 0); rewrite pad_0; simpl; lia.
Qed.

Lemma to_int_range z : - 2 ^ 31 <= to_int z < 2 ^ 31.
Proof.
  unfold to_int, wrap_signed.
  pose proof (Z.mod_pos_bound (z + 2 ^ (32 - 1)) (2 ^ 32) ltac:(lia)).
  change (2 ^ (32 - 1)) with (2 ^ 31) in *. change (2 ^ 32) with (2 * 2 ^ 31) in *. lia.
Qed.

Lemma to_long_range z : - 2 ^ 63 <= to_long z < 2 ^ 63.
Proof.
  unfold to_long, wrap_signed.
  pose proof (Z.mod_pos_bound (z + 2 ^ (64 - 1)) (2 ^ 64) ltac:(lia)).
  change (2 ^ (64 - 1)) with (2 ^ 63) in *. change (2 ^ 64) with (2 * 2 ^ 63) in *. lia.
Qed.

Lemma to_uint_range z : 0 <= to_uint z < 2 ^ 32.
Proof. unfold to_uint, wrap_unsigned. apply Z.mod_pos_bound. lia. Qed.

Lemma to_int_small z : - 2 ^ 31 <= z < 2 ^ 31 -> to_int z = z.
Proof.
  intros H. unfold to_int, wrap_signed.
  change (2 ^ (32 - 1)) with (2 ^ 31). change (2 ^ 32) with (2 * 2 ^ 31).
  rewrite Z.mod_small; lia.
Qed.

Lemma to_size_t_small z : 0 <= z < 2 ^ 64 -> to_size_t z = z.
Proof. intros H. unfold to_size_t, wrap_unsigned. now apply Z.mod_small. Qed.

Lemma decimal_int_length z : (length (decimal (to_int z)) <= 11)%nat.
Proof.
  apply (decimal_length _ 9). pose proof (to_int_range z) as H.
  change (2 ^ 31) with 2147483648 in H.
  change (10 ^ Z.of_nat 10) with 10000000000. lia.
Qed.

Lemma decimal_long_length z : (length (decimal (to_long z)) <= 20)%nat.
Proof.
  apply (decimal_length _ 18). pose proof (to_long_range z) as H.
  change (2 ^ 63) with 9223372036854775808 in H.
  change (10 ^ Z.of_nat 19) with 10000000000000000000. lia.
Qed.

(** [%08x] of an [unsigned int]: exactly eight characters, each one of
    [0-9a-f]. *)
Lemma hex8_length z : 0 <= z < 2 ^ 32 -> length (hex8 z) = 8%nat.
Proof.
  intros Hz. unfold hex8, fmt_hex. apply pad_length.
  apply (digits_aux_length 16 64 z [] 7). - lia.
  - change (16 ^ Z.of_nat 8) with (2 ^ 32). lia.
Qed.

Lemma hex8_chars z : 0 <= z -> Forall (fun c => lower_hex c = true) (hex8 z).
Proof.
  intros Hz. unfold hex8, fmt_hex. apply pad_Forall; [reflexivity|].
  apply digits_aux_Forall; [lia| |lia|constructor].
  intros d Hd. now apply digit_char_hex.
Qed.

Lemma dec_char_plain c : dec_char c -> plain c.
Proof. intros [H | ->]; split; intros E; subst; discriminate. Qed.

Lemma lower_hex_plain c : lower_hex c = true -> plain c.
Proof. intros H; split; intros E; subst; discriminate. Qed.

Lemma decimal_plain z : Forall plain (decimal z).
Proof. eapply Forall_impl; [apply decimal_chars | apply dec_char_plain]. Qed.

Lemma hex8_plain z : 0 <= z -> Forall plain (hex8 z).
Proof.
  intros Hz. eapply Forall_impl; [now apply hex8_chars | apply lower_hex_plain].
Qed.

End FormatFacts.

(** ** The payloads *)

Section PayloadFacts.

Lemma no_nul_check s :
  forallb (fun c => negb (Ascii.eqb c NUL)) s = true -> no_nul s.
Proof.
  intros H. apply Forall_forall. intros c Hc.
  rewrite forallb_forall in H. apply list_elem_of_In in Hc.
  specialize (H c Hc). destruct (Ascii.eqb_spec c NUL); [discriminate | assumption].
Qed.

Lemma plain_no_nul s : Forall plain s -> no_nul s.
Proof. intros H. eapply Forall_impl; [exact H|]. now intros c [Hc _]. Qed.

Lemma field_no_nul key v : no_nul (chars key) -> no_nul v -> no_nul (field key v).
Proof.
  intros Hk Hv. unfold field, no_nul.
  constructor; [discriminate|]. apply Forall_app. split; [assumption|].
  constructor; [discriminate|]. apply Forall_app. split; [assumption|].
  constructor; [discriminate | constructor].
Qed.

Lemma success_payload_no_nul k : no_nul (success_payload k).
Proof.
  unfold success_payload, success_fields. apply Forall_app. split.
  { now apply no_nul_check. }
  rewrite !concat_cons, concat_nil, app_nil_r.
  repeat (apply Forall_app; split);
    apply field_no_nul;
    try (now apply no_nul_check);
    try (apply plain_no_nul, decimal_plain).
  apply plain_no_nul, hex8_plain, to_uint_range.
Qed.

Lemma field_length key v : length (field key v) = (length (chars key) + length v + 3)%nat.
Proof. unfold field. simpl. rewrite length_app. simpl. rewrite length_app. simpl. lia. Qed.

(** The report never exceeds 138 characters. *)
Lemma success_payload_length k : (length (success_payload k) <= 138)%nat.
Proof.
  unfold success_payload, success_fields.
  rewrite !concat_cons, concat_nil, app_nil_r, !length_app, !field_length.
  pose proof (decimal_int_length (normal_prio (deref k (current k)))) as Hprio.
  pose proof (decimal_long_length (state (deref k (current k)))) as Hstate.
  pose proof (hex8_length _ (to_uint_range (flags (deref k (current k))))) as Hflags.
  assert (forall t, length (decimal (pid_of k t)) <= 11)%nat as Hpid.
  { intros t. unfold pid_of. destruct (get_task_pid k t).
    - apply decimal_int_length.
    - simpl. lia. }
  assert (length (decimal (parent_of k (current k))) <= 11)%nat as Hpar.
  { unfold parent_of. destruct (real_parent _); [apply Hpid | simpl; lia]. }
  specialize (Hpid (current k)).
  change (length (chars "Success:\n")) with 9%nat.
  change (length (chars "Current PID")) with 11%nat.
  change (length (chars "parent")) with 6%nat.
  change (length (chars "state")) with 5%nat.
  change (length (chars "flags")) with 5%nat.
  change (length (chars "priority")) with 8%nat.
  change (length (chars "command")) with 7%nat.
  change (length verb) with 8%nat. lia.
Qed.

End PayloadFacts.

(** ** The steps of the handlers *)

Section StepFacts.

Lemma store_inv b i c b' :
  store b i c = Some b' ->
  0 <= i < Z.of_nat (length b) /\ b' = <[Z.to_nat i := c]> b.
Proof.
  unfold store.
  destruct (Z.leb_spec 0 i), (Z.ltb_spec i (Z.of_nat (length b)));
    simpl; try discriminate.
  intros [= <-]. split; [lia | reflexivity].
Qed.

Lemma store_in_bounds b i c :
  0 <= i < Z.of_nat (length b) -> store b i c = Some (<[Z.to_nat i := c]> b).
Proof.
  intros H. unfold store.
  destruct (Z.leb_spec 0 i), (Z.ltb_spec i (Z.of_nat (length b))); simpl; (reflexivity || lia).
Qed.

Lemma store_out_of_bounds b i c :
  Z.of_nat (length b) <= i -> store b i c = None.
Proof.
  intros H. unfold store.
  destruct (Z.leb_spec 0 i), (Z.ltb_spec i (Z.of_nat (length b))); simpl; (reflexivity || lia).
Qed.

Lemma c_str_elem (b : buffer) : NUL ∈ b -> exists s, c_str b = Some s.
Proof.
  induction b as [|c b IH]; intros H; [now apply not_elem_of_nil in H|].
  simpl. destruct (Ascii.eqb_spec c NUL) as [->|Hc]; [eauto|].
  apply elem_of_cons in H as [H|H]; [congruence|].
  destruct (IH H) as [s ->]. simpl. eauto.
Qed.

Lemma store_terminates (b : buffer) i b' :
  store b i NUL = Some b' -> exists s, c_str b' = Some s.
Proof.
  intros H. apply store_inv in H as [Hi ->]. apply c_str_elem.
  apply list_elem_of_lookup. exists (Z.to_nat i).
  apply list_lookup_insert_eq. lia.
Qed.

Lemma uninit_length g n : length (uninit g n) = n.
Proof. unfold uninit. now rewrite length_fmap, length_seq. Qed.

Lemma copy_from_user_fits (dst : buffer) src n :
  n <= Z.of_nat (length dst) ->
  exists b rc, copy_from_user dst src n = Some (b, rc) /\ length b = length dst.
Proof.
  intros Hn. unfold copy_from_user.
  set (data := take (Z.to_nat n) src ++ _).
  assert (length data <= length dst)%nat as Hlen.
  { subst data. rewrite length_app, length_replicate, length_take.
    lia. }
  rewrite write_at_0 by assumption. simpl. do 2 eexists. split; [reflexivity|].
  rewrite length_app, length_drop. lia.
Qed.

(** With a count below [MAX_CALL] the call string is always formed. *)
Lemma received_defined L stack buf count :
  0 <= count < Z.of_nat (MAX_CALL L) ->
  exists cb s, received L stack buf count = Some cb /\ c_str cb = Some s.
Proof.
  intros Hc. unfold received.
  destruct (copy_from_user_fits (uninit (callbuf_init stack) (MAX_CALL L)) buf count)
    as (b & rc & -> & Hlen).
  { rewrite uninit_length. lia. }
  simpl. rewrite uninit_length in Hlen.
  destruct (store b (Z.of_nat (MAX_CALL L) - 1) NUL) as [cb|] eqn:Hst.
  - destruct (store_terminates _ _ _ Hst) as [s Hs]. eauto.
  - rewrite store_in_bounds in Hst; [discriminate | lia].
Qed.

Lemma sprintf_inv dst fmt args b' :
  sprintf dst fmt args = Some b' ->
  exists f out, c_str fmt = Some f /\ vformat f Text args = Some out /\
    (length out < length dst)%nat /\ length b' = length dst /\
    (no_nul out -> c_str b' = Some out).
Proof.
  unfold sprintf.
  destruct (c_str fmt) as [f|] eqn:Hf; simpl; [|discriminate].
  destruct (vformat f Text args) as [out|] eqn:Hout; simpl; [|discriminate].
  intros H. exists f, out. repeat split; try reflexivity; try assumption.
  - apply write_at_inv in H as [H _]. rewrite length_app in H. simpl in H. lia.
  - eapply write_at_length; eauto.
  - intros Hnn. eapply write_string_0; eauto.
Qed.

Lemma sprintf_fits dst fmt args f out :
  c_str fmt = Some f -> vformat f Text args = Some out ->
  (length out < length dst)%nat ->
  exists b', sprintf dst fmt args = Some b'.
Proof.
  intros Hf Hout Hlen. unfold sprintf. rewrite Hf. simpl. rewrite Hout. simpl.
  rewrite write_at_0; [eauto|]. rewrite length_app. simpl. lia.
Qed.


Lemma field_app key v rest :
  field key v ++ rest = TAB :: chars key ++ " "%char :: v ++ LF :: rest.
Proof.
  unfold field. simpl. rewrite <- app_assoc. simpl.
  now rewrite <- app_assoc.
Qed.

(** The report line, as [sprintf] expands the module's format. *)
Lemma report_format a b c d e (cb : buffer) cmd :
  c_str cb = Some cmd ->
  vformat
    (chars "\tCurrent PID %d\n\tparent %d\n\tstate %ld\n\tflags %08x\n\tpriority %d\n\tcommand %s\n")
    Text [AInt a; AInt b; ALong c; AUInt d; AInt e; AStr cb]
  = Some (concat [field "Current PID" (decimal a); field "parent" (decimal b);
                  field "state" (decimal c); field "flags" (hex8 d);
                  field "priority" (decimal e); field "command" cmd]).
Proof.
  intros Hcb. rewrite !concat_cons, concat_nil, !field_app.
  cbv -[fmt_signed fmt_hex c_str app]. rewrite Hcb. reflexivity.
Qed.

End StepFacts.

(** ** The write handler, case by case *)

Section CallFacts.

Context (L : limits).

Lemma lit_empty : c_str (lit EmptyString) = Some [].
Proof. reflexivity. Qed.

Lemma lit_verb : c_str (lit "getpinfo") = Some verb.
Proof. reflexivity. Qed.

Lemma lit_failure : c_str (lit "Failed: invalid operation\n") = Some failure_payload.
Proof. reflexivity. Qed.

Lemma lit_success : c_str (lit "Success:\n") = Some (chars "Success:\n").
Proof. reflexivity. Qed.

Lemma lit_report :
  c_str (lit "\tCurrent PID %d\n\tparent %d\n\tstate %ld\n\tflags %08x\n\tpriority %d\n\tcommand %s\n")
  = Some (chars "\tCurrent PID %d\n\tparent %d\n\tstate %ld\n\tflags %08x\n\tpriority %d\n\tcommand %s\n").
Proof. reflexivity. Qed.

Lemma format_success :
  vformat (chars "Success:\n") Text [] = Some (chars "Success:\n").
Proof. reflexivity. Qed.

Ltac world_simpl :=
  cbn [call_task respbuf preempt_count preempt_disable preempt_enable
       set_call_task set_respbuf occupied_by emptied Nat.pred
       w_ret w_pos w_world r_ret r_pos r_user r_world] in *.

Ltac bind_inv H x Hx :=
  apply bind_Some in H as (x & Hx & H).

Lemma getpinfo_call_sound k heap stack buf count ppos w r :
  getpinfo_call L k heap stack buf count ppos w = Some r ->
  call_outcome L k heap stack buf count ppos w r.
Proof.
  unfold getpinfo_call. cbv zeta.
  destruct (Z.leb_spec (Z.of_nat (MAX_CALL L)) count) as [Hlong|Hshort].
  { intros [= <-]. now constructor. }
  destruct w as [ct rb pc]. world_simpl.
  destruct ct as [t|].
  { intros [= <-]. now apply call_busy. }
  destruct heap as [g|]; cbn [kmalloc fmap option_fmap option_map].
  2:{ intros [= <-]. now apply call_no_memory. }
  intros H.
  bind_inv H b1 Hb1. apply strcpy_inv in Hb1 as (s1 & _ & _ & Hlen1).
  rewrite uninit_length in Hlen1.
  bind_inv H x Hcopy. destruct x as [cb1 rc].
  bind_inv H cb Hstore.
  assert (received L stack buf count = Some cb) as Hrecv.
  { unfold received. rewrite Hcopy. exact Hstore. }
  bind_inv H cmp Hcmp.
  destruct (Z.eqb_spec cmp 0) as [->|Hne]; cbn [negb] in H.
  - (* the verb *)
    apply strcmp_zero in Hcmp as (s & Hcb & Hs).
    rewrite lit_verb in Hs. injection Hs as <-.
    bind_inv H b2 Hb2. apply sprintf_inv in Hb2 as (f & out & Hf & Hout & _ & Hlen2 & Hstr2).
    rewrite lit_success in Hf. injection Hf as <-.
    rewrite format_success in Hout. injection Hout as <-. specialize (Hstr2 ltac:(now apply no_nul_check)).
    world_simpl. cbn [mbind option_bind] in H.
    bind_inv H rl Hrl. apply sprintf_inv in Hrl as (f & out & Hf & Hout & _ & _ & Hstr).
    rewrite lit_report in Hf. injection Hf as <-.
    rewrite (report_format _ _ _ _ _ _ _ Hcb) in Hout. injection Hout as <-.
    bind_inv H b3 Hb3. apply strcat_inv in Hb3 as (d & s & Hd & Hs & Hb3 & Hlen3).
    injection H as <-.
    assert (no_nul (concat (success_fields k))) as Hnn.
    { pose proof (success_payload_no_nul k) as Hp. unfold success_payload in Hp.
      now apply Forall_app in Hp as [_ Hp]. }
    rewrite Hstr2 in Hd. injection Hd as <-.
    rewrite (Hstr Hnn) in Hs. injection Hs as <-.
    apply (call_report L k (Some g) stack buf count ppos _ b3 cb);
      first [assumption | reflexivity | discriminate | congruence].
  - (* anything else *)
    bind_inv H b2 Hb2. apply strcpy_inv in Hb2 as (s & Hs & Hb2 & Hlen2).
    rewrite lit_failure in Hs. injection Hs as <-.
    injection H as <-.
    assert (c_str cb <> Some verb) as Hcb.
    { intros Hcb. rewrite (strcmp_same _ _ _ Hcb lit_verb) in Hcmp. congruence. }
    apply (call_unknown L k (Some g) stack buf count ppos _ b2 cb);
      first [assumption | reflexivity | discriminate | congruence].
Qed.

Lemma received_terminated stack buf count cb :
  received L stack buf count = Some cb -> exists s, c_str cb = Some s.
Proof.
  unfold received. intros H. apply bind_Some in H as ([cb1 rc] & _ & Hst).
  eapply store_terminates; eauto.
Qed.

(** The comparison with the verb is defined on a terminated array, and is
    zero exactly when the array holds the verb. *)
Lemma verb_comparison (cb : buffer) s :
  c_str cb = Some s ->
  exists cmp, strcmp cb (lit "getpinfo") = Some cmp /\ (cmp = 0 <-> s = verb).
Proof.
  intros Hs.
  destruct (strcmp_defined cb (lit "getpinfo") s verb Hs lit_verb) as [cmp Hcmp].
  exists cmp. split; [assumption|]. split.
  - intros ->. apply strcmp_zero in Hcmp as (s' & Hs' & Hv).
    rewrite lit_verb in Hv. congruence.
  - intros ->. rewrite (strcmp_same _ _ _ Hs lit_verb) in Hcmp. congruence.
Qed.

(** A call string other than the verb: the handler completes. *)
Lemma getpinfo_call_unknown_defined k g stack buf count ppos w cb :
  0 <= count < Z.of_nat (MAX_CALL L) -> call_task w = None ->
  received L stack buf count = Some cb -> c_str cb <> Some verb ->
  (27 <= MAX_RESP L)%nat ->
  exists r, getpinfo_call L k (Some g) stack buf count ppos w = Some r.
Proof.
  intros Hcount Hempty Hrecv Hcb Hresp.
  destruct (received_terminated _ _ _ _ Hrecv) as [s Hs].
  destruct (verb_comparison cb s Hs) as (cmp & Hcmp & Hzero).
  unfold getpinfo_call. cbv zeta.
  destruct (Z.leb_spec (Z.of_nat (MAX_CALL L)) count) as [Hlong|_]; [lia|].
  destruct w as [ct rb pc]. world_simpl. subst ct.
  cbn [kmalloc fmap option_fmap option_map].
  pose proof Hrecv as Hr. unfold received in Hr.
  apply bind_Some in Hr as ([cb1 rc] & Hcopy & Hstore).
  destruct (strcpy_fits (uninit g (MAX_RESP L)) (lit EmptyString) [] lit_empty)
    as [b1' Hb1]; [rewrite uninit_length; simpl; lia|].
  pose proof Hb1 as Hlen'. apply strcpy_inv in Hlen' as (_ & _ & _ & Hlen').
  rewrite uninit_length in Hlen'.
  rewrite Hb1. cbn [mbind option_bind]. rewrite Hcopy. cbn [mbind option_bind].
  rewrite Hstore. cbn [mbind option_bind]. rewrite Hcmp. cbn [mbind option_bind].
  destruct (Z.eqb_spec cmp 0) as [E|_]; [apply Hzero in E; congruence|]. cbn [negb].
  destruct (strcpy_fits b1' (lit "Failed: invalid operation\n") _ lit_failure)
    as [b2 Hb2].
  { rewrite Hlen'. change (length failure_payload) with 26%nat. lia. }
  rewrite Hb2. cbn [mbind option_bind]. eauto.
Qed.

(** The verb: the handler completes when the two arrays are large enough
    for the longest report. *)
Lemma getpinfo_call_report_defined k g stack buf count ppos w cb :
  0 <= count < Z.of_nat (MAX_CALL L) -> call_task w = None ->
  received L stack buf count = Some cb -> c_str cb = Some verb ->
  (130 <= MAX_LINE L)%nat -> (139 <= MAX_RESP L)%nat ->
  exists r, getpinfo_call L k (Some g) stack buf count ppos w = Some r.
Proof.
  intros Hcount Hempty Hrecv Hcb Hline Hresp.
  destruct (received_terminated _ _ _ _ Hrecv) as [s Hs].
  destruct (verb_comparison cb s Hs) as (cmp & Hcmp & Hzero).
  unfold getpinfo_call. cbv zeta.
  destruct (Z.leb_spec (Z.of_nat (MAX_CALL L)) count) as [Hlong|_]; [lia|].
  destruct w as [ct rb pc]. world_simpl. subst ct.
  cbn [kmalloc fmap option_fmap option_map].
  pose proof Hrecv as Hr. unfold received in Hr.
  apply bind_Some in Hr as ([cb1 rc] & Hcopy & Hstore).
  destruct (strcpy_fits (uninit g (MAX_RESP L)) (lit EmptyString) [] lit_empty)
    as [b1' Hb1]; [rewrite uninit_length; simpl; lia|].
  pose proof Hb1 as Hlen'. apply strcpy_inv in Hlen' as (_ & _ & _ & Hlen').
  rewrite uninit_length in Hlen'.
  rewrite Hb1. cbn [mbind option_bind]. rewrite Hcopy. cbn [mbind option_bind].
  rewrite Hstore. cbn [mbind option_bind]. rewrite Hcmp. cbn [mbind option_bind].
  destruct (Z.eqb_spec cmp 0) as [_|E]; [|exfalso; apply E, Hzero; congruence].
  cbn [negb].
  pose proof (success_payload_length k) as Hpl.
  pose proof (success_payload_no_nul k) as Hnn.
  unfold success_payload in Hpl, Hnn. rewrite length_app in Hpl.
  apply Forall_app in Hnn as [Hnn1 Hnn2].
  change (length (chars "Success:\n")) with 9%nat in Hpl.
  destruct (sprintf_fits b1' (lit "Success:\n") [] _ _ lit_success format_success)
    as [b2 Hb2].
  { rewrite Hlen'. change (length (chars "Success:\n")) with 9%nat. lia. }
  rewrite Hb2. cbn [mbind option_bind].
  apply sprintf_inv in Hb2 as (f & out & Hf & Hout & _ & Hlen2 & Hstr2).
  rewrite lit_success in Hf. injection Hf as <-.
  rewrite format_success in Hout. injection Hout as <-.
  specialize (Hstr2 Hnn1).
  pose proof (report_format (pid_of k (current k)) (parent_of k (current k))
                (to_long (state (deref k (current k))))
                (to_uint (flags (deref k (current k))))
                (to_int (normal_prio (deref k (current k)))) cb verb Hcb) as Hfmt.
  change (concat _) with (concat (success_fields k)) in Hfmt.
  destruct (sprintf_fits (uninit (resp_line_init stack) (MAX_LINE L)) _ _ _ _
              lit_report Hfmt) as [rl Hrl].
  { rewrite uninit_length. lia. }
  pose proof Hrl as Hrl'. cbv beta delta [pid_of parent_of] in Hrl'.
  rewrite Hrl'. cbn [mbind option_bind].
  apply sprintf_inv in Hrl as (f & out & Hf & Hout & _ & _ & Hstr).
  rewrite lit_report in Hf. injection Hf as <-.
  rewrite Hfmt in Hout. injection Hout as <-.
  specialize (Hstr Hnn2).
  assert (length (chars "Success:\n") + length (concat (success_fields k))
          < length b2)%nat as Hfit.
  { rewrite Hlen2, Hlen'. change (length (chars "Success:\n")) with 9%nat. lia. }
  destruct (strcat_fits b2 rl _ _ Hstr2 Hstr Hfit) as [b3 Hb3].
  rewrite Hb3. cbn [mbind option_bind]. eauto.
Qed.

End CallFacts.

(** ** Call strings *)

Section CallStrings.

Context (L : limits).

(** A payload that carries its terminator is read as the string before
    the terminator, whatever the stack held. *)
Lemma received_terminated_payload stack s rest :
  no_nul s -> (length (s ++ NUL :: rest) < MAX_CALL L)%nat ->
  received L stack (s ++ NUL :: rest) (Z.of_nat (length (s ++ NUL :: rest))) ≫= c_str
  = Some s.
Proof.
  intros Hs Hlen. unfold received, copy_from_user.
  rewrite Nat2Z.id, take_ge, Nat.sub_diag by lia. cbn [replicate]. rewrite app_nil_r.
  rewrite write_at_0 by (rewrite uninit_length; lia). cbn [mbind option_bind].
  rewrite store_in_bounds
    by (rewrite length_app, length_drop, uninit_length; lia).
  cbn [mbind option_bind].
  replace (Z.to_nat (Z.of_nat (MAX_CALL L) - 1)) with (MAX_CALL L - 1)%nat by lia.
  unfold buffer. rewrite <- app_assoc. cbn [app].
  rewrite insert_app_r_alt by (rewrite length_app in Hlen; simpl in Hlen; lia).
  destruct (MAX_CALL L - 1 - length s)%nat as [|n] eqn:E.
  { rewrite length_app in Hlen. simpl in Hlen. lia. }
  cbn [insert list_insert]. now apply c_str_app_nul.
Qed.

(** A payload without terminator is read together with the stack bytes
    that follow it: over a non-zero byte the call string is not the
    payload. *)
Lemma received_unterminated_payload stack (p : list ascii) :
  (length p < MAX_CALL L - 1)%nat -> callbuf_init stack (length p) <> NUL ->
  received L stack p (Z.of_nat (length p)) ≫= c_str <> Some p.
Proof.
  intros Hlen Hdirty. unfold received, copy_from_user.
  rewrite Nat2Z.id, take_ge, Nat.sub_diag by lia. cbn [replicate]. rewrite app_nil_r.
  rewrite write_at_0 by (rewrite uninit_length; lia). cbn [mbind option_bind].
  rewrite store_in_bounds
    by (rewrite length_app, length_drop, uninit_length; lia).
  cbn [mbind option_bind]. intros Hstr.
  apply c_str_inv in Hstr as [_ [rest Hcb]].
  apply (f_equal (fun l : list ascii => l !! length p)) in Hcb.
  unfold buffer in Hcb.
  rewrite list_lookup_insert_ne in Hcb by lia.
  rewrite !lookup_app_r, Nat.sub_diag in Hcb by lia.
  rewrite lookup_drop in Hcb. unfold uninit in Hcb.
  rewrite list_lookup_fmap, lookup_seq_lt in Hcb by lia.
  cbn in Hcb. rewrite Nat.add_0_r in Hcb. congruence.
Qed.

(** The response to a call string other than the verb. *)
Lemma unknown_verb_response k g stack buf count ppos w :
  0 <= count < Z.of_nat (MAX_CALL L) -> call_task w = None ->
  received L stack buf count ≫= c_str <> Some verb ->
  (27 <= MAX_RESP L)%nat ->
  exists b,
    getpinfo_call L k (Some g) stack buf count ppos w
    = Some {| w_ret := count; w_pos := ppos;
              w_world := occupied_by (current k) b w |} /\
    length b = MAX_RESP L /\ c_str b = Some failure_payload.
Proof.
  intros Hcount Hempty Hverb Hresp.
  destruct (received_defined L stack buf count Hcount) as (cb & s & Hrecv & Hs).
  rewrite Hrecv in Hverb. cbn [mbind option_bind] in Hverb.
  destruct (getpinfo_call_unknown_defined L k g stack buf count ppos w cb)
    as [r Hr]; try assumption.
  pose proof (getpinfo_call_sound _ _ _ _ _ _ _ _ _ Hr) as Hout.
  destruct Hout as [Hlong|_ Hocc|_ _ Hheap|b cb' _ _ _ Hrecv' _ Hlen Hb
                   |b cb' _ _ _ Hrecv' Hcb' _ _].
  - lia.
  - now destruct Hocc.
  - discriminate.
  - exists b. auto.
  - congruence.
Qed.

(** X4.  The verb sent as eight bytes without its terminator, over a stack
    whose byte at index 8 is not zero, is answered with the failure
    message, whatever the limits: the bytes that follow the payload on the
    stack are compared with it. *)
Lemma bare_verb_needs_clean_stack k g stack ppos w :
  (9 < MAX_CALL L)%nat -> (27 <= MAX_RESP L)%nat ->
  call_task w = None -> callbuf_init stack 8 <> NUL ->
  exists b,
    getpinfo_call L k (Some g) stack verb 8 ppos w
    = Some {| w_ret := 8; w_pos := ppos;
              w_world := occupied_by (current k) b w |} /\
    length b = MAX_RESP L /\ c_str b = Some failure_payload.
Proof.
  intros Hcall Hresp Hempty Hdirty.
  apply unknown_verb_response; try assumption; [lia|].
  apply (received_unterminated_payload stack verb); [simpl; lia | exact Hdirty].
Qed.

End CallStrings.

(** ** The read handler, case by case *)

Section ReturnFacts.

Ltac world_simpl :=
  cbn [call_task respbuf preempt_count preempt_disable preempt_enable
       set_call_task set_respbuf occupied_by emptied Nat.pred] in *.

(** A task that is not the recorded caller gets nothing and changes
    nothing. *)
Lemma getpinfo_return_foreign k room count ppos w :
  call_task w <> Some (current k) ->
  getpinfo_return k room count ppos w
  = Some {| r_ret := 0; r_pos := ppos; r_user := []; r_world := w |}.
Proof.
  intros Hne. unfold getpinfo_return. cbv zeta.
  destruct w as [ct rb pc]. world_simpl.
  rewrite bool_decide_eq_false_2 by assumption. reflexivity.
Qed.

(** The first steps of a fetch by the recorded caller. *)
Lemma getpinfo_return_owner k room count ppos w (b : buffer) s :
  call_task w = Some (current k) -> respbuf w = Some b -> c_str b = Some s ->
  Z.of_nat (length b) < 2 ^ 31 -> 0 <= count < 2 ^ 64 ->
  getpinfo_return k room count ppos w =
  '(out, rc) ←
    (if count <? Z.of_nat (length s) + 1 then
       b' ← store b (to_size_t (count - 1)) NUL;
       '(out, rest) ← copy_to_user room b' count;
       Some (out, to_int rest)
     else
       '(out, rest) ← copy_to_user room b (Z.of_nat (length s) + 1);
       Some (out, to_int rest));
  Some {| r_ret := rc; r_pos := 0; r_user := out; r_world := emptied w |}.
Proof.
  intros Hct Hrb Hs Hlen Hcount. unfold getpinfo_return. cbv zeta.
  destruct w as [ct rb pc]. world_simpl. subst ct rb.
  rewrite bool_decide_eq_true_2 by reflexivity. cbn [negb mbind option_bind].
  unfold strlen. rewrite Hs. cbn [fmap option_fmap option_map mbind option_bind].
  pose proof (c_str_length _ _ Hs) as Hsl.
  rewrite (to_int_small (Z.of_nat (length s) + 1)) by lia.
  rewrite (to_size_t_small (Z.of_nat (length s) + 1)) by lia.
  reflexivity.
Qed.

Lemma take_terminated (b : buffer) s n :
  c_str b = Some s -> (n <= length s + 1)%nat -> take n b = take n (s ++ [NUL]).
Proof.
  intros Hs Hn. apply c_str_inv in Hs as [_ [rest ->]].
  replace (s ++ NUL :: rest) with ((s ++ [NUL]) ++ rest)
    by now rewrite <- app_assoc.
  rewrite take_app_le; [reflexivity|]. rewrite length_app. simpl. lia.
Qed.

Lemma copy_to_user_in_bounds room (src : buffer) n :
  0 <= n <= Z.of_nat (length src) ->
  copy_to_user room src n
  = Some (take (Nat.min (Z.to_nat n) room) src,
          n - Z.of_nat (Nat.min (Z.to_nat n) room)).
Proof.
  intros Hn. unfold copy_to_user.
  destruct (Z.leb_spec 0 n); [|lia].
  destruct (Z.leb_spec n (Z.of_nat (length src))); [|lia].
  reflexivity.
Qed.

(** Capacity for the whole response: the string and its terminator are
    copied; the value returned is what [copy_to_user] left uncopied. *)
Lemma getpinfo_return_full k room count ppos w (b : buffer) s :
  call_task w = Some (current k) -> respbuf w = Some b -> c_str b = Some s ->
  Z.of_nat (length b) < 2 ^ 31 ->
  Z.of_nat (length s) + 1 <= count < 2 ^ 64 ->
  getpinfo_return k room count ppos w
  = Some {| r_ret := Z.of_nat (length s + 1 - Nat.min (length s + 1) room);
            r_pos := 0;
            r_user := take (Nat.min (length s + 1) room) (s ++ [NUL]);
            r_world := emptied w |}.
Proof.
  intros Hct Hrb Hs Hlen Hcount.
  rewrite (getpinfo_return_owner k room count ppos w b s) by (assumption || lia).
  destruct (Z.ltb_spec count (Z.of_nat (length s) + 1)) as [|_]; [lia|].
  pose proof (c_str_length _ _ Hs) as Hsl.
  rewrite copy_to_user_in_bounds by lia. cbn [mbind option_bind].
  replace (Z.to_nat (Z.of_nat (length s) + 1)) with (length s + 1)%nat by lia.
  rewrite (take_terminated b s) by (assumption || lia).
  rewrite to_int_small by lia.
  do 2 f_equal. lia.
Qed.

(** Capacity below the response length, but not zero: a terminator is
    stored at [count - 1], inside the array, and [count] bytes are copied. *)
Lemma getpinfo_return_truncated k room count ppos w (b : buffer) s :
  call_task w = Some (current k) -> respbuf w = Some b -> c_str b = Some s ->
  Z.of_nat (length b) < 2 ^ 31 ->
  1 <= count < Z.of_nat (length s) + 1 ->
  store b (to_size_t (count - 1)) NUL = Some (<[Z.to_nat (count - 1) := NUL]> b) /\
  getpinfo_return k room count ppos w
  = Some {| r_ret := count - Z.of_nat (Nat.min (Z.to_nat count) room);
            r_pos := 0;
            r_user := take (Nat.min (Z.to_nat count) room)
                        (<[Z.to_nat (count - 1) := NUL]> b);
            r_world := emptied w |}.
Proof.
  intros Hct Hrb Hs Hlen Hcount.
  pose proof (c_str_length _ _ Hs) as Hsl.
  assert (store b (to_size_t (count - 1)) NUL
          = Some (<[Z.to_nat (count - 1) := NUL]> b)) as Hstore.
  { rewrite to_size_t_small by lia. apply store_in_bounds. lia. }
  split; [assumption|].
  rewrite (getpinfo_return_owner k room count ppos w b s) by (assumption || lia).
  destruct (Z.ltb_spec count (Z.of_nat (length s) + 1)) as [_|]; [|lia].
  rewrite Hstore. cbn [mbind option_bind].
  rewrite copy_to_user_in_bounds by (unfold buffer; rewrite length_insert; lia).
  cbn [mbind option_bind].
  rewrite to_int_small by lia. reflexivity.
Qed.

(** Capacity zero: the index [count - 1] wraps to [2^64 - 1], which is
    outside every array. *)
Lemma getpinfo_return_zero k room ppos w (b : buffer) s :
  call_task w = Some (current k) -> respbuf w = Some b -> c_str b = Some s ->
  Z.of_nat (length b) < 2 ^ 31 ->
  to_size_t (0 - 1) = 2 ^ 64 - 1 /\
  store b (to_size_t (0 - 1)) NUL = None /\
  getpinfo_return k room 0 ppos w = None.
Proof.
  intros Hct Hrb Hs Hlen.
  assert (to_size_t (0 - 1) = 2 ^ 64 - 1) as Hidx by reflexivity.
  assert (store b (to_size_t (0 - 1)) NUL = None) as Hstore.
  { apply store_out_of_bounds. rewrite Hidx. lia. }
  repeat split; try assumption.
  rewrite (getpinfo_return_owner k room 0 ppos w b s) by (assumption || lia).
  destruct (Z.ltb_spec 0 (Z.of_nat (length s) + 1)) as [_|]; [|lia].
  now rewrite Hstore.
Qed.

End ReturnFacts.

(** ** Reading a response back *)

Section ReadBack.

Lemma lines_app_LF s rest :
  Forall (fun c => c <> LF) s -> lines (s ++ LF :: rest) = s :: lines rest.
Proof.
  induction 1 as [|c s Hc _ IH]; simpl.
  - reflexivity.
  - destruct (Ascii.eqb_spec c LF) as [->|_]; [contradiction|]. now rewrite IH.
Qed.

Lemma plain_no_LF s : Forall plain s -> Forall (fun c => c <> LF) s.
Proof. intros H. eapply Forall_impl; [exact H|]. now intros c [_ Hc]. Qed.

Lemma no_LF_check s :
  forallb (fun c => negb (Ascii.eqb c LF)) s = true -> Forall (fun c => c <> LF) s.
Proof.
  intros H. apply Forall_forall. intros c Hc.
  rewrite forallb_forall in H. apply list_elem_of_In in Hc.
  specialize (H c Hc). destruct (Ascii.eqb_spec c LF); [discriminate | assumption].
Qed.

(** A field is one line: a tab, the key, a blank, the value. *)
Lemma lines_field key v rest :
  Forall (fun c => c <> LF) (chars key) -> Forall (fun c => c <> LF) v ->
  lines (field key v ++ rest) = (TAB :: chars key ++ " "%char :: v) :: lines rest.
Proof.
  intros Hk Hv. rewrite field_app.
  replace (TAB :: chars key ++ " "%char :: v ++ LF :: rest)
    with ((TAB :: chars key ++ " "%char :: v) ++ LF :: rest).
  - apply lines_app_LF. constructor; [discriminate|].
    apply Forall_app. split; [assumption|]. constructor; [discriminate | assumption].
  - simpl. rewrite <- app_assoc. reflexivity.
Qed.

Lemma digit_value_char d : 0 <= d < 16 -> digit_value (digit_char d) = d.
Proof.
  intros H.
  assert (d = 0 \/ d = 1 \/ d = 2 \/ d = 3 \/ d = 4 \/ d = 5 \/ d = 6 \/
          d = 7 \/ d = 8 \/ d = 9 \/ d = 10 \/ d = 11 \/ d = 12 \/ d = 13 \/
          d = 14 \/ d = 15) as E by lia.
  repeat (destruct E as [-> | E]; [reflexivity|]). now subst.
Qed.

Lemma digits_aux_app base fuel n acc :
  digits_aux base fuel n acc = digits_aux base fuel n [] ++ acc.
Proof.
  revert n acc. induction fuel as [|fuel IH]; intros n acc; simpl; [reflexivity|].
  destruct (n <? base); [reflexivity|].
  rewrite (IH _ (_ :: acc)), (IH _ [_]). now rewrite <- app_assoc.
Qed.

Lemma number_snoc base s c :
  number base (s ++ [c]) = number base s * base + digit_value c.
Proof. unfold number. now rewrite fold_left_app. Qed.

(** The digits produced denote the number they were produced from. *)
Lemma number_digits_aux base fuel n :
  1 < base <= 16 -> 0 <= n < base ^ Z.of_nat fuel ->
  number base (digits_aux base fuel n []) = n.
Proof.
  intros Hb. revert n. induction fuel as [|fuel IH]; intros n Hn.
  { change (base ^ Z.of_nat 0) with 1 in Hn. assert (n = 0) as -> by lia. reflexivity. }
  simpl. pose proof (Z.mod_pos_bound n base ltac:(lia)) as Hmod.
  destruct (Z.ltb_spec n base) as [Hlt|Hge].
  - unfold number. simpl. rewrite Z.mod_small by lia. apply digit_value_char. lia.
  - rewrite digits_aux_app, number_snoc, digit_value_char by lia.
    rewrite IH.
    + pose proof (Z.div_mod n base ltac:(lia)). lia.
    + split; [apply Z.div_pos; lia|]. apply Z.div_lt_upper_bound; [lia|].
      replace (Z.of_nat (S fuel)) with (Z.succ (Z.of_nat fuel)) in Hn by lia.
      rewrite Z.pow_succ_r in Hn by lia. lia.
Qed.

Lemma number_zeros base n s :
  number base (replicate n "0"%char ++ s) = number base s.
Proof.
  unfold number. rewrite fold_left_app. f_equal.
  induction n as [|n IH]; simpl; [reflexivity|]. exact IH.
Qed.

(** [%08x] loses nothing of an [unsigned int]. *)
Lemma number_hex8 z : 0 <= z < 2 ^ 32 -> number 16 (hex8 z) = z.
Proof.
  intros Hz. unfold hex8, fmt_hex, pad. rewrite number_zeros.
  apply number_digits_aux; [lia|].
  change (16 ^ Z.of_nat 64) with (2 ^ 256). split; [lia|].
  apply Z.lt_trans with (2 ^ 32); [lia | reflexivity].
Qed.

(** [%d] and [%ld] lose nothing either. *)
Lemma number_decimal z :
  - 2 ^ 63 <= z < 2 ^ 63 ->
  decimal z = (if z <? 0 then ["-"%char] else []) ++ digits 10 (Z.abs z) /\
  number 10 (digits 10 (Z.abs z)) = Z.abs z.
Proof.
  intros Hz. split.
  - unfold decimal, fmt_signed. destruct (z <? 0); reflexivity.
  - apply number_digits_aux; [lia|].
    split; [lia|]. apply Z.lt_le_trans with (2 ^ 64); [lia|].
    change (10 ^ Z.of_nat 64) with (10 ^ 64). now vm_compute.
Qed.

End ReadBack.

(** * The protocol *)

(** ** Accepted submits and reachable states *)

Section Protocol.

Context (L : limits).

(** A submit that reports a byte count has claimed the slot for the
    caller and left a response in the buffer. *)
Lemma accepted_call k heap stack buf count ppos w r :
  getpinfo_call L k heap stack buf count ppos w = Some r -> 0 <= w_ret r ->
  exists b s,
    w_world r = occupied_by (current k) b w /\ length b = MAX_RESP L /\
    c_str b = Some s /\ (s = failure_payload \/ s = success_payload k).
Proof.
  intros H Hret. apply getpinfo_call_sound in H.
  destruct H; cbn [w_ret w_world] in *;
    try (unfold EINVAL, EAGAIN, ENOSPC in Hret; lia).
  - exists b, failure_payload. auto.
  - exists b, (success_payload k). auto.
Qed.

(** Where a completed fetch leaves the globals. *)
Lemma getpinfo_return_world k room count ppos w f :
  getpinfo_return k room count ppos w = Some f ->
  (call_task w <> Some (current k) /\ r_world f = w) \/
  (call_task w = Some (current k) /\ r_world f = emptied w).
Proof.
  destruct (decide (call_task w = Some (current k))) as [Heq|Hne].
  - intros H. right. split; [assumption|].
    unfold getpinfo_return in H. cbv zeta in H.
    destruct w as [ct rb pc].
    cbn [call_task respbuf preempt_count preempt_disable] in *.
    rewrite bool_decide_eq_true_2 in H by assumption. cbn [negb] in H.
    apply bind_Some in H as (b & _ & H).
    apply bind_Some in H as (n & _ & H).
    apply bind_Some in H as ([out rc] & _ & H).
    injection H as <-. reflexivity.
  - intros H. left. split; [assumption|].
    rewrite getpinfo_return_foreign in H by assumption. now injection H as <-.
Qed.

Lemma reachable_slot_inv w : reachable L w -> slot_inv w.
Proof.
  induction 1 as [|k heap stack buf count ppos w r _ IH Hcall
                  |k room count ppos w f _ IH Hret].
  - exact I.
  - apply getpinfo_call_sound in Hcall.
    destruct Hcall; cbn [w_world]; try assumption.
    + unfold slot_inv, emptied. cbn [call_task respbuf]. exact I.
    + unfold slot_inv, occupied_by. cbn [call_task respbuf].
      exists failure_payload. split; [assumption | now left].
    + unfold slot_inv, occupied_by. cbn [call_task respbuf].
      exists (success_payload k). split; [assumption | right; eauto].
  - apply getpinfo_return_world in Hret as [[_ ->] | [_ ->]]; [assumption|].
    exact I.
Qed.

(** Fetches by tasks other than the recorded caller, however many, leave
    the globals as they were. *)
Lemma foreign_fetches_world fs t w w' :
  call_task w = Some t ->
  Forall (fun f => current (f_kernel f) <> t) fs ->
  fetches fs w = Some w' -> w' = w.
Proof.
  intros Ht Hfs. revert w'. induction Hfs as [|f fs Hf _ IH]; intros w' H.
  - now injection H as <-.
  - cbn [fetches] in H. rewrite getpinfo_return_foreign in H by congruence.
    cbn [mbind option_bind r_world] in H. now apply IH.
Qed.

(** Every exit re-enables preemption as often as it was disabled. *)
Lemma reachable_preempt_balanced w : reachable L w -> preempt_count w = 0%nat.
Proof.
  induction 1 as [|k heap stack buf count ppos w r _ IH Hcall
                  |k room count ppos w f _ IH Hret].
  - reflexivity.
  - apply getpinfo_call_sound in Hcall. destruct Hcall; exact IH.
  - apply getpinfo_return_world in Hret as [[_ ->] | [_ ->]]; exact IH.
Qed.

End Protocol.

(** ** Completed runs *)

Section MoreFacts.

Context (L : limits).

(** The response to the verb. *)
Lemma verb_report_response k g stack buf count ppos w :
  0 <= count < Z.of_nat (MAX_CALL L) -> call_task w = None ->
  received L stack buf count ≫= c_str = Some verb ->
  (130 <= MAX_LINE L)%nat -> (139 <= MAX_RESP L)%nat ->
  exists b,
    getpinfo_call L k (Some g) stack buf count ppos w
    = Some {| w_ret := count; w_pos := 0;
              w_world := occupied_by (current k) b w |} /\
    length b = MAX_RESP L /\ c_str b = Some (success_payload k).
Proof.
  intros Hcount Hempty Hverb Hline Hresp.
  destruct (received_defined L stack buf count Hcount) as (cb & s & Hrecv & Hs).
  rewrite Hrecv in Hverb. cbn [mbind option_bind] in Hverb.
  destruct (getpinfo_call_report_defined L k g stack buf count ppos w cb)
    as [r Hr]; try assumption.
  pose proof (getpinfo_call_sound _ _ _ _ _ _ _ _ _ Hr) as Hout.
  destruct Hout as [Hlong|_ Hocc|_ _ Hheap|b cb' _ _ _ Hrecv' Hcb' _ _
                   |b cb' _ _ _ _ _ Hlen Hb].
  - lia.
  - now destruct Hocc.
  - discriminate.
  - congruence.
  - exists b. auto.
Qed.

(** On an empty slot, with memory to be had and arrays large enough for
    the longest report, every submit shorter than [MAX_CALL] is accepted. *)
Lemma call_on_empty_slot k g stack buf count ppos w :
  0 <= count < Z.of_nat (MAX_CALL L) -> call_task w = None ->
  (130 <= MAX_LINE L)%nat -> (139 <= MAX_RESP L)%nat ->
  exists b s pos,
    getpinfo_call L k (Some g) stack buf count ppos w
    = Some {| w_ret := count; w_pos := pos;
              w_world := occupied_by (current k) b w |} /\
    length b = MAX_RESP L /\ c_str b = Some s /\
    ((received L stack buf count ≫= c_str = Some verb /\
      s = success_payload k /\ pos = 0) \/
     (received L stack buf count ≫= c_str <> Some verb /\
      s = failure_payload /\ pos = ppos)).
Proof.
  intros Hcount Hempty Hline Hresp.
  destruct (decide (received L stack buf count ≫= c_str = Some verb)) as [Hv|Hv].
  - destruct (verb_report_response k g stack buf count ppos w)
      as (b & Hcall & Hlen & Hb); try assumption.
    exists b, (success_payload k), 0. auto 10.
  - destruct (unknown_verb_response L k g stack buf count ppos w)
      as (b & Hcall & Hlen & Hb); try assumption; [lia|].
    exists b, failure_payload, ppos. auto 10.
Qed.

(** The buffer of a reachable state has the size it was allocated with. *)
Lemma reachable_buffer_size w b :
  reachable L w -> respbuf w = Some b -> length b = MAX_RESP L.
Proof.
  intros Hreach. revert b.
  induction Hreach as [|k heap stack buf count ppos w r _ IH Hcall
                       |k room count ppos w f _ IH Hret]; intros b0.
  - discriminate.
  - apply getpinfo_call_sound in Hcall.
    destruct Hcall; cbn [w_world respbuf occupied_by emptied];
      try apply IH; try discriminate; congruence.
  - apply getpinfo_return_world in Hret as [[_ ->] | [_ ->]];
      [apply IH | discriminate].
Qed.

(** What is copied out, for every capacity: the response cut to
    [count - 1] characters, then a terminator. *)
Lemma insert_terminator_prefix (b : buffer) s i :
  c_str b = Some s -> (i < length s)%nat ->
  take (S i) (<[i := NUL]> b) = take i s ++ [NUL].
Proof.
  intros Hs Hi. apply c_str_inv in Hs as [_ [rest ->]].
  unfold buffer. rewrite insert_app_l by assumption.
  rewrite take_app_le by (rewrite length_insert; lia).
  rewrite (take_S_r _ _ NUL) by (apply list_lookup_insert_eq; assumption).
  now rewrite take_insert_ge by lia.
Qed.

(** A fetch by the recorded caller with a capacity of at least one. *)
Lemma getpinfo_return_owner_result k room count ppos w (b : buffer) s :
  call_task w = Some (current k) -> respbuf w = Some b -> c_str b = Some s ->
  Z.of_nat (length b) < 2 ^ 31 -> 1 <= count < 2 ^ 64 ->
  let n := Nat.min (Z.to_nat count) (length s + 1) in
  getpinfo_return k room count ppos w
  = Some {| r_ret := Z.of_nat (n - Nat.min n room);
            r_pos := 0;
            r_user := take (Nat.min n room) (take (Z.to_nat count - 1) s ++ [NUL]);
            r_world := emptied w |}.
Proof.
  intros Hct Hrb Hs Hlen Hcount n.
  destruct (Z.lt_ge_cases count (Z.of_nat (length s) + 1)) as [Hshort|Hfull].
  - destruct (getpinfo_return_truncated k room count ppos w b s) as [_ ->];
      try assumption; [lia|].
    assert (n = Z.to_nat count) as -> by (subst n; lia).
    do 2 f_equal.
    + lia.
    + replace (Z.to_nat (count - 1)) with (Z.to_nat count - 1)%nat by lia.
      rewrite <- (insert_terminator_prefix b s) by (assumption || lia).
      replace (S (Z.to_nat count - 1)) with (Z.to_nat count) by lia.
      rewrite take_take. f_equal. lia.
  - rewrite (getpinfo_return_full k room count ppos w b s)
      by (assumption || lia).
    assert (n = (length s + 1)%nat) as -> by (subst n; lia).
    rewrite (take_ge s) by lia. reflexivity.
Qed.

End MoreFacts.

(** ** Submit *)

(** C6.  A submit whose length is [MAX_CALL] or more is rejected with
    "invalid argument" ([-EINVAL]); the file position, the recorded caller,
    the response buffer and the preemption count are exactly as before. *)
Theorem submit_oversized_rejected L k heap stack buf count ppos w :
  Z.of_nat (MAX_CALL L) <= count ->
  getpinfo_call L k heap stack buf count ppos w
  = Some {| w_ret := - EINVAL; w_pos := ppos; w_world := w |}.
Proof.
  intros Hlong. unfold getpinfo_call. cbv zeta.
  destruct (Z.leb_spec (Z.of_nat (MAX_CALL L)) count); [reflexivity | lia].
Qed.

Lemma submit_oversized_rejected_witness :
  getpinfo_call sample_limits (sample_kernel task_A) (Some (fun _ => "x"%char))
    (junk "y") (replicate 100 "a"%char) 100 3 loaded
  = Some {| w_ret := - EINVAL; w_pos := 3; w_world := loaded |}.
Proof. apply submit_oversized_rejected. simpl. lia. Defined.

(** C1, as stated, fails when the payload is also too long: the length
    check comes first, so a submit of [MAX_CALL] bytes on an occupied slot is
    answered "invalid argument", not "try again". *)
Lemma busy_submit_too_long :
  let w := occupied_by task_A (lit "Failed: invalid operation\n") loaded in
  call_task w <> None /\
  getpinfo_call sample_limits (sample_kernel task_B) (Some (fun _ => "x"%char))
    (junk "y") (replicate 100 "a"%char) 100 3 w
  = Some {| w_ret := - EINVAL; w_pos := 3; w_world := w |} /\
  - EINVAL <> - EAGAIN.
Proof. split; [discriminate|]. split; [reflexivity | discriminate]. Qed.

(** C1, amended.  A submit of fewer than [MAX_CALL] bytes on an occupied
    slot returns "try again" ([-EAGAIN]) and changes nothing.  In
    particular, after a submit A that was accepted (it reported a byte
    count) and any fetches by tasks other than A's, any submit B of fewer
    than [MAX_CALL] bytes returns "try again" and changes nothing. *)
Theorem submit_busy_try_again L k heap stack buf count ppos :
  count < Z.of_nat (MAX_CALL L) ->
  (forall w, call_task w <> None ->
     getpinfo_call L k heap stack buf count ppos w
     = Some {| w_ret := - EAGAIN; w_pos := ppos; w_world := w |}) /\
  (forall kA heapA stackA bufA countA pposA w0 rA others w,
     getpinfo_call L kA heapA stackA bufA countA pposA w0 = Some rA ->
     0 <= w_ret rA ->
     Forall (fun f => current (f_kernel f) <> current kA) others ->
     fetches others (w_world rA) = Some w ->
     getpinfo_call L k heap stack buf count ppos w
     = Some {| w_ret := - EAGAIN; w_pos := ppos; w_world := w |}).
Proof.
  intros Hshort.
  assert (forall w, call_task w <> None ->
     getpinfo_call L k heap stack buf count ppos w
     = Some {| w_ret := - EAGAIN; w_pos := ppos; w_world := w |}) as Hbusy.
  { intros w Hocc. unfold getpinfo_call. cbv zeta.
    destruct (Z.leb_spec (Z.of_nat (MAX_CALL L)) count); [lia|].
    destruct w as [[t|] rb pc]; [reflexivity | now destruct Hocc]. }
  split; [exact Hbusy|].
  intros kA heapA stackA bufA countA pposA w0 rA others w HA Hacc Hothers Hrun.
  apply Hbusy.
  destruct (accepted_call _ _ _ _ _ _ _ _ _ HA Hacc) as (b & s & Hw & _).
  rewrite Hw in Hrun.
  assert (w = occupied_by (current kA) b w0) as ->.
  { apply (foreign_fetches_world others (current kA)); [reflexivity | assumption..]. }
  cbn [call_task occupied_by]. discriminate.
Qed.

(** Task A submits ["hello"], task B tries to fetch, then task B submits
    the verb. *)
Lemma submit_busy_try_again_witness :
  exists rA w,
    getpinfo_call sample_limits (sample_kernel task_A) (Some (fun _ => "x"%char))
      (junk "y") (chars "hello") 5 0 loaded = Some rA /\
    fetches [{| f_kernel := sample_kernel task_B; f_room := 512;
                f_count := 512; f_pos := 0 |}] (w_world rA) = Some w /\
    getpinfo_call sample_limits (sample_kernel task_B) (Some (fun _ => "x"%char))
      (junk "y") (chars "getpinfo") 8 3 w
    = Some {| w_ret := - EAGAIN; w_pos := 3; w_world := w |}.
Proof.
  eexists. eexists.
  split; [vm_compute; reflexivity|]. split; [vm_compute; reflexivity|].
  eapply (proj2 (submit_busy_try_again sample_limits (sample_kernel task_B)
                   (Some (fun _ => "x"%char)) (junk "y") (chars "getpinfo") 8 3
                   ltac:(simpl; lia))
            (sample_kernel task_A) (Some (fun _ => "x"%char)) (junk "y")
            (chars "hello") 5 0 loaded _
            [{| f_kernel := sample_kernel task_B; f_room := 512;
                f_count := 512; f_pos := 0 |}] _).
  - vm_compute. reflexivity.
  - simpl. lia.
  - constructor; [simpl; discriminate | constructor].
  - vm_compute. reflexivity.
Defined.

(** C7.  When the allocation of the response buffer fails, the submit
    returns "no space" ([-ENOSPC]) and the slot is not occupied: the recorded
    caller is still null and no buffer is kept. *)
Theorem submit_alloc_failure L k stack buf count ppos w :
  count < Z.of_nat (MAX_CALL L) -> call_task w = None ->
  exists w',
    getpinfo_call L k None stack buf count ppos w
    = Some {| w_ret := - ENOSPC; w_pos := ppos; w_world := w' |} /\
    call_task w' = None /\ respbuf w' = None /\
    preempt_count w' = preempt_count w.
Proof.
  intros Hshort Hempty. exists (emptied w). repeat split.
  unfold getpinfo_call. cbv zeta.
  destruct (Z.leb_spec (Z.of_nat (MAX_CALL L)) count); [lia|].
  destruct w as [ct rb pc]. cbn [call_task] in Hempty. subst ct. reflexivity.
Qed.

Lemma submit_alloc_failure_witness :
  exists w',
    getpinfo_call sample_limits (sample_kernel task_A) None (junk "y")
      (chars "getpinfo") 8 3 loaded
    = Some {| w_ret := - ENOSPC; w_pos := 3; w_world := w' |} /\
    call_task w' = None /\ respbuf w' = None /\
    preempt_count w' = preempt_count loaded.
Proof. apply submit_alloc_failure; [simpl; lia | reflexivity]. Defined.

(** C4.  The code does not do this.  The payload is compared together
    with the stack bytes that follow it in the local array (the terminator
    is forced into the last byte only), so a payload that is not the verb
    can be taken for it: over a stack on which an earlier call left
    ["getpinfo"], the empty payload and the payloads ["ge"] and ["getp"]
    get the Success report, not the failure message.  The same ["ge"] over
    a stack of ['y'], or sent with its terminator over the stale stack,
    gets the failure message. *)
Theorem short_payload_over_stale_verb :
  let submit stack payload count :=
    r ← getpinfo_call sample_limits (sample_kernel task_A)
           (Some (fun _ => "x"%char)) stack payload count 0 loaded;
    b ← respbuf (w_world r); c_str b in
  submit stale_verb [] 0 = Some (success_payload (sample_kernel task_A)) /\
  submit stale_verb (chars "ge") 2 = Some (success_payload (sample_kernel task_A)) /\
  submit stale_verb (chars "getp") 4 = Some (success_payload (sample_kernel task_A)) /\
  submit (junk "y") (chars "ge") 2 = Some failure_payload /\
  submit stale_verb (lit "ge") 3 = Some failure_payload.
Proof. vm_compute. repeat split. Qed.

(** C5.  A submit whose call string is the verb (slot empty, buffer
    allocated, arrays large enough for the longest report): the response
    buffer holds ["Success:\n"] followed by exactly six lines, each a tab, a
    key and a value, the keys being [Current PID], [parent], [state],
    [flags], [priority], [command] in that order; the flags value is eight
    characters of [0-9a-f] that denote the flags word; the parent value is
    [0] when the task has no parent or the parent has no pid. *)
Theorem submit_verb_report L k g stack buf count ppos w :
  0 <= count < Z.of_nat (MAX_CALL L) -> call_task w = None ->
  received L stack buf count ≫= c_str = Some verb ->
  (130 <= MAX_LINE L)%nat -> (139 <= MAX_RESP L)%nat ->
  let t := current k in
  let pid := decimal (pid_of k t) in
  let parent := decimal (parent_of k t) in
  let st := decimal (to_long (state (deref k t))) in
  let fl := hex8 (to_uint (flags (deref k t))) in
  let prio := decimal (to_int (normal_prio (deref k t))) in
  exists b text,
    getpinfo_call L k (Some g) stack buf count ppos w
    = Some {| w_ret := count; w_pos := 0;
              w_world := occupied_by t b w |} /\
    c_str b = Some text /\
    text = chars "Success:\n" ++
           field "Current PID" pid ++ field "parent" parent ++
           field "state" st ++ field "flags" fl ++
           field "priority" prio ++ field "command" (chars "getpinfo") /\
    lines text = [ chars "Success:";
                   TAB :: chars "Current PID " ++ pid;
                   TAB :: chars "parent " ++ parent;
                   TAB :: chars "state " ++ st;
                   TAB :: chars "flags " ++ fl;
                   TAB :: chars "priority " ++ prio;
                   TAB :: chars "command getpinfo";
                   [] ] /\
    length fl = 8%nat /\ Forall (fun c => lower_hex c = true) fl /\
    number 16 fl = to_uint (flags (deref k t)) /\
    (real_parent (deref k t) = None \/
     (exists p, real_parent (deref k t) = Some p /\ get_task_pid k p = None) ->
     parent = chars "0").
Proof.
  intros Hcount Hempty Hverb Hline Hresp t pid parent st fl prio.
  destruct (received_defined L stack buf count Hcount) as (cb & s & Hrecv & Hs).
  rewrite Hrecv in Hverb. cbn [mbind option_bind] in Hverb.
  destruct (getpinfo_call_report_defined L k g stack buf count ppos w cb)
    as [r Hr]; try assumption.
  pose proof (getpinfo_call_sound _ _ _ _ _ _ _ _ _ Hr) as Hout.
  pose proof (to_uint_range (flags (deref k t))) as Hfl.
  destruct Hout as [Hlong|_ Hocc|_ _ Hheap|b cb' _ _ _ Hrecv' Hcb' _ _
                   |b cb' _ _ _ _ _ _ Hb].
  - lia.
  - now destruct Hocc.
  - discriminate.
  - congruence.
  - exists b, (success_payload k). split; [exact Hr|]. split; [exact Hb|].
    assert (success_payload k
            = chars "Success:\n" ++
              field "Current PID" pid ++ field "parent" parent ++
              field "state" st ++ field "flags" fl ++
              field "priority" prio ++ field "command" (chars "getpinfo")) as Htext.
    { unfold success_payload, success_fields.
      now rewrite !concat_cons, concat_nil, app_nil_r. }
    split; [exact Htext|]. split; [|split; [|split; [|split]]].
    + rewrite Htext.
      change (chars "Success:\n") with (chars "Success:" ++ [LF]).
      rewrite <- app_assoc. cbn [app].
      rewrite lines_app_LF by now apply no_LF_check.
      rewrite !lines_field;
        try (now apply no_LF_check);
        try (apply plain_no_LF, decimal_plain);
        try (apply plain_no_LF, hex8_plain; lia).
      rewrite <- (app_nil_r (field "command" _)).
      rewrite lines_field by now apply no_LF_check.
      reflexivity.
    + now apply hex8_length.
    + apply hex8_chars. lia.
    + now apply number_hex8.
    + unfold parent, parent_of, pid_of.
      intros [-> | (p & -> & ->)]; reflexivity.
Qed.

Lemma submit_verb_report_witness :
  exists b text,
    getpinfo_call sample_limits (sample_kernel task_A) (Some (fun _ => "x"%char))
      (junk "y") (lit "getpinfo") 9 3 loaded
    = Some {| w_ret := 9; w_pos := 0; w_world := occupied_by task_A b loaded |} /\
    c_str b = Some text /\
    lines text = [ chars "Success:";
                   chars "\tCurrent PID 5";
                   chars "\tparent 7";
                   chars "\tstate 0";
                   chars "\tflags 00400140";
                   chars "\tpriority 120";
                   chars "\tcommand getpinfo";
                   [] ].
Proof.
  destruct (submit_verb_report sample_limits (sample_kernel task_A)
              (fun _ => "x"%char) (junk "y") (lit "getpinfo") 9 3 loaded)
    as (b & text & Hcall & Hb & _ & Hlines & _).
  - simpl. lia.
  - reflexivity.
  - vm_compute. reflexivity.
  - simpl. lia.
  - simpl. lia.
  - exists b, text. split; [exact Hcall|]. split; [exact Hb|]. exact Hlines.
Defined.

(** C9.  The code does not do this.  The terminator is forced into the last
    byte of the local array and nowhere else, so a payload of exactly the
    eight bytes of the verb is compared together with whatever the stack
    held after them: over a dirty stack it is answered "Failed: invalid
    operation"; the same payload over a zeroed stack, or sent with its
    terminator, gets the report.  ([bare_verb_needs_clean_stack] has the
    first part for all limits and all stacks.) *)
Theorem bare_verb_over_dirty_stack :
  let submit stack payload count :=
    r ← getpinfo_call sample_limits (sample_kernel task_A)
           (Some (fun _ => "x"%char)) stack payload count 0 loaded;
    b ← respbuf (w_world r); c_str b in
  submit (junk "y") (chars "getpinfo") 8 = Some failure_payload /\
  submit (junk NUL) (chars "getpinfo") 8 = Some (success_payload (sample_kernel task_A)) /\
  submit (junk "y") (lit "getpinfo") 9 = Some (success_payload (sample_kernel task_A)).
Proof. vm_compute. repeat split. Qed.

(** ** Fetch *)

(** C2.  A fetch by a task that is not the recorded caller reports zero
    bytes, delivers nothing and leaves the file position, the recorded
    caller, the buffer and the preemption count as they were.  If the slot
    was claimed by a submit of task T, a fetch by T that follows (with
    capacity for the whole response) still receives the response that
    submit produced, terminator included, and empties the slot.  (The
    value that fetch returns is the subject of C3.) *)
Theorem foreign_fetch_harmless kU roomU countU pposU w :
  call_task w <> Some (current kU) ->
  getpinfo_return kU roomU countU pposU w
  = Some {| r_ret := 0; r_pos := pposU; r_user := []; r_world := w |} /\
  forall L kT heap stack buf count ppos w0 r,
    getpinfo_call L kT heap stack buf count ppos w0 = Some r ->
    0 <= w_ret r -> w_world r = w ->
    Z.of_nat (MAX_RESP L) < 2 ^ 31 ->
    exists s,
      respbuf w ≫= c_str = Some s /\
      (s = failure_payload \/ s = success_payload kT) /\
      forall kT' room m ppos',
        current kT' = current kT ->
        Z.of_nat (length s) + 1 <= m < 2 ^ 64 -> (length s + 1 <= room)%nat ->
        getpinfo_return kT' room m ppos' w
        = Some {| r_ret := 0; r_pos := 0; r_user := s ++ [NUL];
                  r_world := emptied w |}.
Proof.
  intros Hforeign. split; [now apply getpinfo_return_foreign|].
  intros L kT heap stack buf count ppos w0 r Hcall Hacc <- Hresp.
  destruct (accepted_call _ _ _ _ _ _ _ _ _ Hcall Hacc)
    as (b & s & Hw & Hlen & Hs & Hkind).
  exists s. rewrite Hw. cbn [respbuf occupied_by mbind option_bind].
  split; [exact Hs|]. split; [exact Hkind|].
  intros kT' room m ppos' Hsame Hm Hroom.
  rewrite (getpinfo_return_full kT' room m ppos' _ b s);
    try assumption; try (cbn [call_task respbuf occupied_by]; congruence); try lia.
  rewrite Nat.min_l by lia. rewrite take_ge by (rewrite length_app; simpl; lia).
  rewrite Nat.sub_diag. reflexivity.
Qed.

(** Task A submits ["hello"], task B fetches, then task A fetches. *)
Lemma foreign_fetch_harmless_witness :
  exists r,
    getpinfo_call sample_limits (sample_kernel task_A) (Some (fun _ => "x"%char))
      (junk "y") (chars "hello") 5 0 loaded = Some r /\
    getpinfo_return (sample_kernel task_B) 512 512 3 (w_world r)
    = Some {| r_ret := 0; r_pos := 3; r_user := []; r_world := w_world r |} /\
    getpinfo_return (sample_kernel task_A) 512 512 3 (w_world r)
    = Some {| r_ret := 0; r_pos := 0;
              r_user := chars "Failed: invalid operation\n" ++ [NUL];
              r_world := emptied (w_world r) |}.
Proof.
  eexists. split; [vm_compute; reflexivity|].
  match goal with |- context [getpinfo_return _ _ _ _ ?w] => set (w1 := w) end.
  destruct (foreign_fetch_harmless (sample_kernel task_B) 512 512 3 w1
              ltac:(discriminate)) as [Hforeign Howner].
  split; [exact Hforeign|].
  destruct (Howner sample_limits (sample_kernel task_A) (Some (fun _ => "x"%char))
              (junk "y") (chars "hello") 5 0 loaded
              {| w_ret := 5; w_pos := 0; w_world := w1 |})
    as (s & Hs & _ & Hfetch).
  - vm_compute. reflexivity.
  - simpl. lia.
  - reflexivity.
  - simpl. lia.
  - vm_compute in Hs. injection Hs as <-.
    apply (Hfetch (sample_kernel task_A) 512%nat 512 3).
    + reflexivity.
    + simpl. lia.
    + simpl. lia.
Defined.

(** C3.  The code does not do this.  The value a fetch returns is the
    result of [copy_to_user], the number of bytes that could NOT be copied:
    when the copy succeeds the fetch reports 0, whether the whole response
    of 27 bytes was delivered or a truncated one of 10 bytes ending in a
    terminator. *)
Theorem fetch_reports_bytes_not_copied :
  let fetch count :=
    r ← getpinfo_call sample_limits (sample_kernel task_A)
           (Some (fun _ => "x"%char)) (junk "y") (chars "hello") 5 0 loaded;
    f ← getpinfo_return (sample_kernel task_A) 512 count 0 (w_world r);
    Some (r_ret f, r_user f) in
  fetch 512 = Some (0, chars "Failed: invalid operation\n" ++ [NUL]) /\
  length (chars "Failed: invalid operation\n" ++ [NUL]) = 27%nat /\
  fetch 10 = Some (0, chars "Failed: i" ++ [NUL]).
Proof. vm_compute. repeat split. Qed.

(** C10.  The code does not do this.  With capacity 0 the index
    [count - 1] is computed in [size_t] and wraps to [2^64 - 1]; the store
    of the terminator falls outside the response buffer, whatever its
    size.  (For a capacity of at least 1 the store is inside the buffer:
    [getpinfo_return_truncated].) *)
Theorem fetch_capacity_zero_stores_outside :
  let w := occupied_by task_A
             (lit "Failed: invalid operation\n" ++ replicate 973 "x"%char) loaded in
  to_size_t (0 - 1) = 18446744073709551615 /\
  (b ← respbuf w; store b (to_size_t (0 - 1)) NUL) = None /\
  getpinfo_return (sample_kernel task_A) 512 0 0 w = None /\
  (r ← getpinfo_call sample_limits (sample_kernel task_A)
          (Some (fun _ => "x"%char)) (junk "y") (chars "hello") 5 0 loaded;
   Some (w_world r)) = Some w.
Proof. vm_compute. repeat split. Qed.

(** ** The slot *)

(** C8.  In every state the module can reach through completed submits and
    fetches, the recorded caller is null exactly when the buffer pointer is
    null, and when the slot is occupied the buffer holds a terminated
    string that is one of the module's responses.  A submit on the empty
    slot (shorter than [MAX_CALL], memory to be had, arrays large enough)
    completes and sets caller and buffer together, the buffer holding a
    complete response.  A fetch by the recorded caller with a capacity of
    at least one completes and leaves both the caller and the pointer
    null; so does every completed fetch by the recorded caller.  (With
    capacity zero the store of the terminator leaves the buffer: C10.) *)
Theorem slot_consistent L w :
  reachable L w ->
  (call_task w = None <-> respbuf w = None) /\
  (forall t, call_task w = Some t ->
     exists b s, respbuf w = Some b /\ c_str b = Some s /\ complete_response s) /\
  (forall k room count ppos f,
     call_task w = Some (current k) ->
     getpinfo_return k room count ppos w = Some f ->
     call_task (r_world f) = None /\ respbuf (r_world f) = None) /\
  (forall k room count ppos,
     call_task w = Some (current k) ->
     Z.of_nat (MAX_RESP L) < 2 ^ 31 -> 1 <= count < 2 ^ 64 ->
     exists f,
       getpinfo_return k room count ppos w = Some f /\
       call_task (r_world f) = None /\ respbuf (r_world f) = None) /\
  (forall k g stack buf count ppos,
     call_task w = None ->
     0 <= count < Z.of_nat (MAX_CALL L) ->
     (130 <= MAX_LINE L)%nat -> (139 <= MAX_RESP L)%nat ->
     exists r b s,
       getpinfo_call L k (Some g) stack buf count ppos w = Some r /\
       w_ret r = count /\
       call_task (w_world r) = Some (current k) /\
       respbuf (w_world r) = Some b /\
       c_str b = Some s /\ complete_response s).
Proof.
  intros Hreach.
  pose proof (reachable_slot_inv L w Hreach) as Hinv. unfold slot_inv in Hinv.
  split; [|split; [|split; [|split]]].
  - destruct (call_task w), (respbuf w); try contradiction; split; congruence.
  - intros t Ht. rewrite Ht in Hinv.
    destruct (respbuf w) as [b|]; [|contradiction].
    destruct Hinv as (s & Hs & Hresp). eauto.
  - intros k room count ppos f Hown Hret.
    apply getpinfo_return_world in Hret as [[Hne _] | [_ ->]]; [contradiction|].
    split; reflexivity.
  - intros k room count ppos Hown Hresp Hcount.
    rewrite Hown in Hinv.
    destruct (respbuf w) as [b|] eqn:Hb; [|contradiction].
    destruct Hinv as (s & Hs & _).
    pose proof (reachable_buffer_size L w b Hreach Hb) as Hlen.
    eexists. split.
    + apply (getpinfo_return_owner_result k room count ppos w b s);
        (assumption || lia).
    + split; reflexivity.
  - intros k g stack buf count ppos Hempty Hcount Hline Hresp.
    destruct (call_on_empty_slot L k g stack buf count ppos w)
      as (b & s & pos & Hcall & _ & Hs & Hkind); try assumption.
    eexists. exists b, s. split; [exact Hcall|].
    repeat split; try assumption.
    destruct Hkind as [(_ & -> & _) | (_ & -> & _)];
      [right; eauto | now left].
Qed.

(** The state after task A submitted ["hello"]; task A then fetches 512
    bytes. *)
Lemma slot_consistent_witness :
  let w := occupied_by task_A
             (lit "Failed: invalid operation\n" ++ replicate 973 "x"%char) loaded in
  (call_task w = None <-> respbuf w = None) /\
  (exists b s, respbuf w = Some b /\ c_str b = Some s /\ complete_response s) /\
  (exists f,
     getpinfo_return (sample_kernel task_A) 512 512 0 w = Some f /\
     call_task (r_world f) = None /\ respbuf (r_world f) = None).
Proof.
  intros w.
  destruct (slot_consistent sample_limits w) as (Hiff & Hresp & _ & Hfetch & _).
  - apply (reach_call sample_limits (sample_kernel task_A) (Some (fun _ => "x"%char))
             (junk "y") (chars "hello") 5 0 loaded
             {| w_ret := 5; w_pos := 0; w_world := w |}).
    + apply reach_loaded.
    + vm_compute. reflexivity.
  - split; [exact Hiff|]. split.
    + apply (Hresp task_A). reflexivity.
    + apply (Hfetch (sample_kernel task_A) 512%nat 512 0).
      * reflexivity.
      * simpl. lia.
      * lia.
Defined.

(** * Further properties of the handlers *)

(** ** More on submit *)

(** The state after task A submitted ["hello"]. *)
Ltac sample_occupied :=
  apply (reach_call sample_limits (sample_kernel task_A) (Some (fun _ => "x"%char))
           (junk "y") (chars "hello") 5 0 loaded
           {| w_ret := 5; w_pos := 0;
              w_world := occupied_by task_A
                (lit "Failed: invalid operation\n" ++ replicate 973 "x"%char) loaded |});
  [apply reach_loaded | vm_compute; reflexivity].

(** X1.  With arrays large enough for the longest report ([MAX_LINE] at
    least 130, [MAX_RESP] at least 139), [getpinfo_call] completes on every
    input: no store or copy leaves an array, whatever the payload, the
    stack, the task and the state of the slot.  It returns the byte count
    or one of [-EINVAL], [-EAGAIN], [-ENOSPC]. *)
Theorem submit_completes L k heap stack buf count ppos w :
  0 <= count -> (130 <= MAX_LINE L)%nat -> (139 <= MAX_RESP L)%nat ->
  exists r,
    getpinfo_call L k heap stack buf count ppos w = Some r /\
    (w_ret r = count \/ w_ret r = - EINVAL \/ w_ret r = - EAGAIN \/
     w_ret r = - ENOSPC).
Proof.
  intros Hcount Hline Hresp.
  destruct (Z.le_gt_cases (Z.of_nat (MAX_CALL L)) count) as [Hlong|Hshort].
  { exists {| w_ret := - EINVAL; w_pos := ppos; w_world := w |}.
    split; [|right; left; reflexivity].
    unfold getpinfo_call. cbv zeta.
    destruct (Z.leb_spec (Z.of_nat (MAX_CALL L)) count); [reflexivity | lia]. }
  destruct (call_task w) as [t|] eqn:Hslot.
  { exists {| w_ret := - EAGAIN; w_pos := ppos; w_world := w |}.
    split; [|right; right; left; reflexivity].
    unfold getpinfo_call. cbv zeta.
    destruct (Z.leb_spec (Z.of_nat (MAX_CALL L)) count); [lia|].
    destruct w as [ct rb pc]. cbn [call_task] in Hslot. subst ct. reflexivity. }
  destruct heap as [g|].
  - destruct (call_on_empty_slot L k g stack buf count ppos w)
      as (b & s & pos & Hcall & _); try assumption; [lia|].
    eexists. split; [exact Hcall | left; reflexivity].
  - exists {| w_ret := - ENOSPC; w_pos := ppos; w_world := emptied w |}.
    split; [|right; right; right; reflexivity].
    unfold getpinfo_call. cbv zeta.
    destruct (Z.leb_spec (Z.of_nat (MAX_CALL L)) count); [lia|].
    destruct w as [ct rb pc]. cbn [call_task] in Hslot. subst ct. reflexivity.
Qed.

Lemma submit_completes_witness :
  exists r,
    getpinfo_call sample_limits (sample_kernel task_A) (Some (fun _ => "x"%char))
      (junk "y") [] 0 7 loaded = Some r /\
    (w_ret r = 0 \/ w_ret r = - EINVAL \/ w_ret r = - EAGAIN \/
     w_ret r = - ENOSPC).
Proof. apply submit_completes; simpl; lia. Defined.

(** X2.  In a reachable state, a submit that returns an error changes
    nothing: the recorded caller, the buffer, the preemption count and the
    file position are as before.  (On the "no space" path the pointer is
    overwritten with the null result of [kmalloc]; it held null already.) *)
Theorem rejected_submit_changes_nothing L k heap stack buf count ppos w r :
  reachable L w -> 0 <= count ->
  getpinfo_call L k heap stack buf count ppos w = Some r ->
  w_ret r < 0 ->
  w_world r = w /\ w_pos r = ppos.
Proof.
  intros Hreach Hcount Hcall Hneg.
  apply reachable_slot_inv in Hreach. unfold slot_inv in Hreach.
  apply getpinfo_call_sound in Hcall.
  destruct Hcall as [Hlong|_ Hocc|_ Hempty Hheap|b cb _ _ _ _ _ _ _
                    |b cb _ _ _ _ _ _ _]; cbn [w_ret w_world w_pos] in *.
  - split; reflexivity.
  - split; reflexivity.
  - split; [|reflexivity]. rewrite Hempty in Hreach.
    destruct w as [ct rb pc]. cbn [call_task respbuf] in *. subst ct.
    destruct rb; [contradiction | reflexivity].
  - lia.
  - lia.
Qed.

Lemma rejected_submit_changes_nothing_witness :
  let w := occupied_by task_A
             (lit "Failed: invalid operation\n" ++ replicate 973 "x"%char) loaded in
  w_world {| w_ret := - EAGAIN; w_pos := 7; w_world := w |} = w /\
  w_pos {| w_ret := - EAGAIN; w_pos := 7; w_world := w |} = 7.
Proof.
  apply (rejected_submit_changes_nothing sample_limits (sample_kernel task_B)
           (Some (fun _ => "x"%char)) (junk "y") (chars "getpinfo") 8 7).
  - sample_occupied.
  - lia.
  - vm_compute. reflexivity.
  - vm_compute. reflexivity.
Defined.

(** X3.  A payload that carries a terminator is judged by the bytes before
    its first terminator alone: it gets the report when these are
    ["getpinfo"] and the failure message otherwise, whatever follows the
    terminator in the payload and whatever the stack held.  The file
    position is reset only for the report. *)
Theorem terminated_payload_recognition L k g stack s rest ppos w :
  let payload := s ++ NUL :: rest in
  no_nul s -> (length payload < MAX_CALL L)%nat -> call_task w = None ->
  (130 <= MAX_LINE L)%nat -> (139 <= MAX_RESP L)%nat ->
  exists b,
    getpinfo_call L k (Some g) stack payload (Z.of_nat (length payload)) ppos w
    = Some {| w_ret := Z.of_nat (length payload);
              w_pos := if decide (s = verb) then 0 else ppos;
              w_world := occupied_by (current k) b w |} /\
    c_str b = Some (if decide (s = verb) then success_payload k
                    else failure_payload).
Proof.
  intros payload Hs Hlen Hempty Hline Hresp.
  pose proof (received_terminated_payload L stack s rest Hs Hlen) as Hrecv.
  fold payload in Hrecv.
  destruct (call_on_empty_slot L k g stack payload (Z.of_nat (length payload)) ppos w)
    as (b & s' & pos & Hcall & _ & Hb & Hkind); try assumption; [lia|].
  exists b. rewrite Hrecv in Hkind.
  destruct Hkind as [([= ->] & -> & ->) | (Hne & -> & ->)].
  - rewrite !decide_True by reflexivity. split; assumption.
  - rewrite !decide_False by congruence. split; assumption.
Qed.

Lemma terminated_payload_recognition_witness :
  exists b,
    getpinfo_call sample_limits (sample_kernel task_A) (Some (fun _ => "x"%char))
      (junk "y") (chars "getpinfo" ++ NUL :: chars "and more") 17 7 loaded
    = Some {| w_ret := 17; w_pos := 0; w_world := occupied_by task_A b loaded |} /\
    c_str b = Some (success_payload (sample_kernel task_A)).
Proof.
  apply (terminated_payload_recognition sample_limits (sample_kernel task_A)
           (fun _ => "x"%char) (junk "y") (chars "getpinfo") (chars "and more") 7 loaded).
  - apply no_nul_check. reflexivity.
  - simpl. lia.
  - reflexivity.
  - simpl. lia.
  - simpl. lia.
Defined.

(** The verb as eight bytes over a stack of ['y']. *)
Lemma bare_verb_needs_clean_stack_witness :
  exists b,
    getpinfo_call sample_limits (sample_kernel task_A) (Some (fun _ => "x"%char))
      (junk "y") verb 8 7 loaded
    = Some {| w_ret := 8; w_pos := 7; w_world := occupied_by task_A b loaded |} /\
    length b = 1000%nat /\ c_str b = Some failure_payload.
Proof.
  apply (bare_verb_needs_clean_stack sample_limits (sample_kernel task_A)).
  - simpl. lia.
  - simpl. lia.
  - reflexivity.
  - simpl. discriminate.
Defined.

(** X5.  Both handlers re-enable preemption as often as they disabled it,
    on every exit: a completed [write] and a completed [read] leave the
    preemption count as they found it. *)
Theorem handlers_balance_preemption L kc heap stack buf count ppos
    kr room rcount rpos w r f :
  getpinfo_call L kc heap stack buf count ppos w = Some r ->
  getpinfo_return kr room rcount rpos w = Some f ->
  preempt_count (w_world r) = preempt_count w /\
  preempt_count (r_world f) = preempt_count w.
Proof.
  intros Hcall Hret. split.
  - apply getpinfo_call_sound in Hcall. destruct Hcall; reflexivity.
  - apply getpinfo_return_world in Hret as [[_ ->] | [_ ->]]; reflexivity.
Qed.

Lemma handlers_balance_preemption_witness :
  let w := {| call_task := None; respbuf := None; preempt_count := 3 |} in
  exists r f,
    getpinfo_call sample_limits (sample_kernel task_A) (Some (fun _ => "x"%char))
      (junk "y") (chars "hello") 5 0 w = Some r /\
    getpinfo_return (sample_kernel task_A) 512 512 0 w = Some f /\
    preempt_count (w_world r) = preempt_count w /\
    preempt_count (r_world f) = preempt_count w.
Proof.
  intros w. eexists. eexists.
  split; [vm_compute; reflexivity|]. split; [vm_compute; reflexivity|].
  apply (handlers_balance_preemption sample_limits (sample_kernel task_A)
           (Some (fun _ => "x"%char)) (junk "y") (chars "hello") 5 0
           (sample_kernel task_A) 512 512 0 w).
  - vm_compute. reflexivity.
  - vm_compute. reflexivity.
Defined.

(** X6.  Whatever the task and its numbers, a response is never longer
    than 138 characters: in every reachable state the string in the buffer
    and its terminator fit in 139 bytes. *)
Theorem response_fits_139_bytes L w b s :
  reachable L w -> respbuf w = Some b -> c_str b = Some s ->
  (length s + 1 <= 139)%nat.
Proof.
  intros Hreach Hb Hs.
  apply reachable_slot_inv in Hreach. unfold slot_inv in Hreach.
  rewrite Hb in Hreach. destruct (call_task w); [|contradiction].
  destruct Hreach as (s' & Hs' & Hkind).
  assert (s' = s) as -> by congruence.
  destruct Hkind as [-> | [k ->]].
  - simpl. lia.
  - pose proof (success_payload_length k). lia.
Qed.

Lemma response_fits_139_bytes_witness :
  (length (chars "Failed: invalid operation\n") + 1 <= 139)%nat.
Proof.
  apply (response_fits_139_bytes sample_limits
           (occupied_by task_A
              (lit "Failed: invalid operation\n" ++ replicate 973 "x"%char) loaded)
           (lit "Failed: invalid operation\n" ++ replicate 973 "x"%char)).
  - sample_occupied.
  - reflexivity.
  - vm_compute. reflexivity.
Defined.

(** ** More on fetch *)

(** X7.  A fetch by the recorded caller with capacity [count] of at least
    one, into a user buffer that takes [count] bytes: the user receives the
    response cut to at most [count - 1] characters, followed by a
    terminator -- the whole response when it fits -- and the slot is
    emptied. *)
Theorem fetch_delivers_cut_response k room count ppos w (b : buffer) s :
  call_task w = Some (current k) -> respbuf w = Some b -> c_str b = Some s ->
  Z.of_nat (length b) < 2 ^ 31 -> 1 <= count < 2 ^ 64 ->
  count <= Z.of_nat room ->
  exists f,
    getpinfo_return k room count ppos w = Some f /\
    r_user f = take (Z.to_nat count - 1) s ++ [NUL] /\
    (Z.of_nat (length s) < count -> r_user f = s ++ [NUL]) /\
    r_world f = emptied w /\ r_pos f = 0.
Proof.
  intros Hct Hrb Hs Hlen Hcount Hroom.
  rewrite (getpinfo_return_owner_result k room count ppos w b s) by assumption.
  eexists. split; [reflexivity|]. cbn [r_user r_world r_pos].
  assert (take (Nat.min (Nat.min (Z.to_nat count) (length s + 1)) room)
            (take (Z.to_nat count - 1) s ++ [NUL])
          = take (Z.to_nat count - 1) s ++ [NUL]) as ->.
  { apply take_ge. rewrite length_app, length_take. simpl. lia. }
  repeat split.
  intros Hfits. now rewrite take_ge by lia.
Qed.

Lemma fetch_delivers_cut_response_witness :
  let b := lit "Failed: invalid operation\n" ++ replicate 973 "x"%char in
  exists f,
    getpinfo_return (sample_kernel task_A) 512 10 3 (occupied_by task_A b loaded)
    = Some f /\
    r_user f = take (Z.to_nat 10 - 1) (chars "Failed: invalid operation\n") ++ [NUL] /\
    (Z.of_nat (length (chars "Failed: invalid operation\n")) < 10 ->
     r_user f = chars "Failed: invalid operation\n" ++ [NUL]) /\
    r_world f = emptied (occupied_by task_A b loaded) /\ r_pos f = 0.
Proof.
  intros b.
  apply (fetch_delivers_cut_response (sample_kernel task_A) 512 10 3 _ b).
  - reflexivity.
  - reflexivity.
  - vm_compute. reflexivity.
  - vm_compute. reflexivity.
  - lia.
  - simpl. lia.
Defined.

(** X8.  However little of the user buffer is writable, a fetch by the
    recorded caller (capacity at least one) empties the slot: what could
    not be copied is lost with the buffer.  The value returned and the
    number of bytes delivered add up to the number of bytes that were to be
    copied, so the value is zero exactly when the copy was complete. *)
Theorem fetch_short_copy_releases_slot k room count ppos w (b : buffer) s :
  call_task w = Some (current k) -> respbuf w = Some b -> c_str b = Some s ->
  Z.of_nat (length b) < 2 ^ 31 -> 1 <= count < 2 ^ 64 ->
  let n := Nat.min (Z.to_nat count) (length s + 1) in
  exists f,
    getpinfo_return k room count ppos w = Some f /\
    r_world f = emptied w /\
    length (r_user f) = Nat.min n room /\
    r_ret f + Z.of_nat (length (r_user f)) = Z.of_nat n /\
    (r_ret f = 0 <-> (n <= room)%nat).
Proof.
  intros Hct Hrb Hs Hlen Hcount n.
  rewrite (getpinfo_return_owner_result k room count ppos w b s) by assumption.
  eexists. split; [reflexivity|]. cbn [r_user r_world r_ret]. fold n.
  assert (length (take (Nat.min n room) (take (Z.to_nat count - 1) s ++ [NUL]))
          = Nat.min n room) as Hout.
  { rewrite length_take, length_app, length_take. simpl. subst n. lia. }
  rewrite Hout. repeat split; lia.
Qed.

Lemma fetch_short_copy_releases_slot_witness :
  let b := lit "Failed: invalid operation\n" ++ replicate 973 "x"%char in
  let w := occupied_by task_A b loaded in
  exists f,
    getpinfo_return (sample_kernel task_A) 4 512 3 w = Some f /\
    r_world f = emptied w /\
    length (r_user f) = Nat.min 27 4 /\
    r_ret f + Z.of_nat (length (r_user f)) = 27 /\
    (r_ret f = 0 <-> (27 <= 4)%nat).
Proof.
  intros b w.
  apply (fetch_short_copy_releases_slot (sample_kernel task_A) 4 512 3 w b
           (chars "Failed: invalid operation\n")).
  - reflexivity.
  - reflexivity.
  - vm_compute. reflexivity.
  - vm_compute. reflexivity.
  - lia.
Defined.

Lemma copy_to_user_length room (src : buffer) n out rest :
  copy_to_user room src n = Some (out, rest) ->
  (length out <= Nat.min (Z.to_nat n) room)%nat.
Proof.
  unfold copy_to_user.
  destruct ((0 <=? n) && (n <=? Z.of_nat (length src))); [|discriminate].
  intros [= <- _]. rewrite length_take. lia.
Qed.

(** X9.  A completed fetch never puts more bytes into the user buffer than
    the capacity the caller gave, nor more than the buffer takes -- in any
    state, reachable or not. *)
Theorem fetch_never_overruns k room count ppos w f :
  0 <= count ->
  getpinfo_return k room count ppos w = Some f ->
  Z.of_nat (length (r_user f)) <= count /\ (length (r_user f) <= room)%nat.
Proof.
  intros Hcount H. unfold getpinfo_return in H. cbv zeta in H.
  destruct (bool_decide _); cbn [negb] in H.
  2:{ injection H as <-. cbn [r_user length]. lia. }
  apply bind_Some in H as (b & _ & H).
  apply bind_Some in H as (n & _ & H).
  apply bind_Some in H as ([out rc] & Hcopy & H).
  injection H as <-. cbn [r_user].
  destruct (Z.ltb_spec count (to_size_t (to_int (n + 1)))) as [Hlt|Hge].
  - apply bind_Some in Hcopy as (b' & _ & Hcopy).
    apply bind_Some in Hcopy as ([out' rest] & Hcopy & Hout).
    injection Hout as -> _.
    apply copy_to_user_length in Hcopy. lia.
  - apply bind_Some in Hcopy as ([out' rest] & Hcopy & Hout).
    injection Hout as -> _.
    apply copy_to_user_length in Hcopy. lia.
Qed.

Lemma fetch_never_overruns_witness :
  let b := lit "Failed: invalid operation\n" ++ replicate 973 "x"%char in
  let f := {| r_ret := 0; r_pos := 0; r_user := chars "Failed: i" ++ [NUL];
              r_world := loaded |} in
  Z.of_nat (length (r_user f)) <= 10 /\ (length (r_user f) <= 512)%nat.
Proof.
  intros b f.
  apply (fetch_never_overruns (sample_kernel task_A) 512 10 3
           (occupied_by task_A b loaded) f).
  - lia.
  - vm_compute. reflexivity.
Defined.

(** X10.  In a reachable state (with [MAX_RESP] below [2^31]) a fetch
    leaves an array in one case only: the recorded caller fetching with
    capacity zero.  Every other fetch completes. *)
Theorem fetch_faults_only_at_zero L k room count ppos w :
  reachable L w -> Z.of_nat (MAX_RESP L) < 2 ^ 31 -> 0 <= count < 2 ^ 64 ->
  getpinfo_return k room count ppos w = None <->
  call_task w = Some (current k) /\ count = 0.
Proof.
  intros Hreach Hresp Hcount.
  pose proof (reachable_slot_inv L w Hreach) as Hinv. unfold slot_inv in Hinv.
  destruct (decide (call_task w = Some (current k))) as [Hown|Hforeign].
  2:{ rewrite getpinfo_return_foreign by assumption.
      split; [discriminate | now intros [? _]]. }
  rewrite Hown in Hinv.
  destruct (respbuf w) as [b|] eqn:Hb; [|contradiction].
  destruct Hinv as (s & Hs & _).
  pose proof (reachable_buffer_size L w b Hreach Hb) as Hlen.
  destruct (decide (count = 0)) as [->|Hpos].
  - destruct (getpinfo_return_zero k room ppos w b s) as (_ & _ & ->);
      try assumption; [lia|]. split; auto.
  - rewrite (getpinfo_return_owner_result k room count ppos w b s)
      by (assumption || lia).
    split; [discriminate | intros [_ ?]; contradiction].
Qed.

Lemma fetch_faults_only_at_zero_witness :
  let b := lit "Failed: invalid operation\n" ++ replicate 973 "x"%char in
  let w := occupied_by task_A b loaded in
  getpinfo_return (sample_kernel task_A) 512 0 3 w = None <->
  call_task w = Some (current (sample_kernel task_A)) /\ 0 = 0.
Proof.
  intros b w.
  apply (fetch_faults_only_at_zero sample_limits (sample_kernel task_A) 512 0 3 w).
  - sample_occupied.
  - simpl. lia.
  - lia.
Defined.

(** ** Whole exchanges *)

(** X11.  A submit that is accepted on an empty slot, followed by a
    completed fetch of the same task, leaves the module exactly as it was
    before the submit. *)
Theorem exchange_restores_state L k heap stack buf count ppos w r
    k' room m ppos' f :
  call_task w = None -> respbuf w = None ->
  getpinfo_call L k heap stack buf count ppos w = Some r -> 0 <= w_ret r ->
  current k' = current k ->
  getpinfo_return k' room m ppos' (w_world r) = Some f ->
  r_world f = w.
Proof.
  intros Hct Hrb Hcall Hacc Hsame Hret.
  destruct (accepted_call _ _ _ _ _ _ _ _ _ Hcall Hacc) as (b & s & Hw & _).
  rewrite Hw in Hret.
  apply getpinfo_return_world in Hret as [[Hne _] | [_ ->]].
  - cbn [call_task occupied_by] in Hne. congruence.
  - destruct w as [ct rb pc]. cbn [call_task respbuf] in *. now subst.
Qed.

Lemma exchange_restores_state_witness :
  r_world {| r_ret := 0; r_pos := 0;
             r_user := chars "Failed: invalid operation\n" ++ [NUL];
             r_world := loaded |} = loaded.
Proof.
  apply (exchange_restores_state sample_limits (sample_kernel task_A)
           (Some (fun _ => "x"%char)) (junk "y") (chars "hello") 5 0 loaded
           {| w_ret := 5; w_pos := 0;
              w_world := occupied_by task_A
                (lit "Failed: invalid operation\n" ++ replicate 973 "x"%char) loaded |}
           (sample_kernel task_A) 512 512 3).
  - reflexivity.
  - reflexivity.
  - vm_compute. reflexivity.
  - simpl. lia.
  - reflexivity.
  - vm_compute. reflexivity.
Defined.

(** X12.  After a completed fetch by the recorded caller the slot is free
    again: every further fetch, by any task, reports zero bytes, and the
    next submit (shorter than [MAX_CALL], memory to be had) is accepted
    and claims the slot for its caller. *)
Theorem slot_free_after_fetch L k room count ppos w f :
  call_task w = Some (current k) ->
  getpinfo_return k room count ppos w = Some f ->
  (130 <= MAX_LINE L)%nat -> (139 <= MAX_RESP L)%nat ->
  (forall k2 room2 count2 ppos2,
     getpinfo_return k2 room2 count2 ppos2 (r_world f)
     = Some {| r_ret := 0; r_pos := ppos2; r_user := []; r_world := r_world f |}) /\
  (forall k2 g stack buf n pos,
     0 <= n < Z.of_nat (MAX_CALL L) ->
     exists r,
       getpinfo_call L k2 (Some g) stack buf n pos (r_world f) = Some r /\
       w_ret r = n /\ call_task (w_world r) = Some (current k2)).
Proof.
  intros Hown Hret Hline Hresp.
  apply getpinfo_return_world in Hret as [[Hne _] | [_ ->]]; [contradiction|].
  split.
  - intros k2 room2 count2 ppos2. apply getpinfo_return_foreign. discriminate.
  - intros k2 g stack buf n pos Hn.
    destruct (call_on_empty_slot L k2 g stack buf n pos (emptied w))
      as (b & s & pos' & Hcall & _); try assumption; [reflexivity|].
    eexists. split; [exact Hcall|]. split; reflexivity.
Qed.

Lemma slot_free_after_fetch_witness :
  let b := lit "Failed: invalid operation\n" ++ replicate 973 "x"%char in
  let f := {| r_ret := 0; r_pos := 0;
              r_user := chars "Failed: invalid operation\n" ++ [NUL];
              r_world := loaded |} in
  (forall k2 room2 count2 ppos2,
     getpinfo_return k2 room2 count2 ppos2 (r_world f)
     = Some {| r_ret := 0; r_pos := ppos2; r_user := []; r_world := r_world f |}) /\
  (forall k2 g stack buf n pos,
     0 <= n < Z.of_nat (MAX_CALL sample_limits) ->
     exists r,
       getpinfo_call sample_limits k2 (Some g) stack buf n pos (r_world f) = Some r /\
       w_ret r = n /\ call_task (w_world r) = Some (current k2)).
Proof.
  intros b f.
  apply (slot_free_after_fetch sample_limits (sample_kernel task_A) 512 512 3
           (occupied_by task_A b loaded) f).
  - reflexivity.
  - vm_compute. reflexivity.
  - simpl. lia.
  - simpl. lia.
Defined.

(** * Loading and unloading *)

(** X13.  Loading, when both nodes can be created (two new dentries),
    returns 0 and puts into debugfs a directory with the module's directory
    name at the root and, inside it, a file with the module's file name,
    mode 0666, bound to [getpinfo_return] for [read] and [getpinfo_call] for
    [write]; no other node changes.  Unloading then removes the file and the
    directory: debugfs is exactly as it was before the load, whatever
    happened to the slot in between. *)
Theorem load_unload_restores_debugfs N L d f g t w :
  t !! d = None -> t !! f = None -> d <> f ->
  exists g' t',
    getpinfo_module_init N L (Some d) (Some f) g t = (0, g', t') /\
    t' !! d = Some (Directory (dir_name N) None) /\
    t' !! f = Some (File (file_name N) 438 (Some d)
                         {| read := getpinfo_return; write := getpinfo_call L |}) /\
    (forall x, x <> d -> x <> f -> t' !! x = t !! x) /\
    fst (getpinfo_module_exit g' w t') = t.
Proof.
  intros Hd Hf Hne.
  exists {| dir := Some d; file := Some f |}.
  exists (<[f := File (file_name N) mode_rw_all (Some d) (my_fops L)]>
            (<[d := Directory (dir_name N) None]> t)).
  split; [reflexivity|]. split; [|split; [|split]].
  - rewrite lookup_insert_ne by congruence. apply lookup_insert_eq.
  - apply lookup_insert_eq.
  - intros x Hxd Hxf. now rewrite !lookup_insert_ne by congruence.
  - unfold getpinfo_module_exit. cbv zeta. cbn [file dir debugfs_remove].
    assert (delete d (delete f
              (<[f := File (file_name N) mode_rw_all (Some d) (my_fops L)]>
                 (<[d := Directory (dir_name N) None]> t))) = t) as Htree.
    { rewrite delete_insert_id by (rewrite lookup_insert_ne by congruence; exact Hf).
      now rewrite delete_insert_id. }
    destruct (respbuf w); cbn [fst]; exact Htree.
Qed.

Lemma load_unload_restores_debugfs_witness :
  exists g' t',
    getpinfo_module_init {| dir_name := "getpinfo"; file_name := "call" |}
      sample_limits (Some 1%positive) (Some 2%positive)
      {| dir := None; file := None |} ∅ = (0, g', t') /\
    t' !! 1%positive = Some (Directory "getpinfo" None) /\
    t' !! 2%positive
    = Some (File "call" 438 (Some 1%positive)
              {| read := getpinfo_return; write := getpinfo_call sample_limits |}) /\
    (forall x, x <> 1%positive -> x <> 2%positive -> t' !! x = (∅ : tree) !! x) /\
    fst (getpinfo_module_exit g' loaded t') = ∅.
Proof.
  apply (load_unload_restores_debugfs
           {| dir_name := "getpinfo"; file_name := "call" |} sample_limits
           1%positive 2%positive {| dir := None; file := None |} ∅ loaded).
  - reflexivity.
  - reflexivity.
  - discriminate.
Defined.

(** X14.  A load that fails returns [-ENODEV].  When the directory cannot
    be created, debugfs is untouched; when the directory is created and the
    file is not, the directory is left in debugfs -- the load does not
    remove it. *)
Theorem failed_load_leaves_directory N L d fresh_file g t :
  t !! d = None ->
  (exists g',
     getpinfo_module_init N L None fresh_file g t = (- ENODEV, g', t)) /\
  (exists g' t',
     getpinfo_module_init N L (Some d) None g t = (- ENODEV, g', t') /\
     t' !! d = Some (Directory (dir_name N) None) /\
     t' <> t /\
     forall x, x <> d -> t' !! x = t !! x).
Proof.
  intros Hd. split.
  - eexists. reflexivity.
  - exists {| dir := Some d; file := None |}.
    exists (<[d := Directory (dir_name N) None]> t).
    split; [reflexivity|]. split; [|split].
    + apply lookup_insert_eq.
    + intros Heq. apply (f_equal (fun m : tree => m !! d)) in Heq.
      rewrite lookup_insert_eq, Hd in Heq. discriminate.
    + intros x Hx. now rewrite lookup_insert_ne by congruence.
Qed.

Lemma failed_load_leaves_directory_witness :
  exists g' t',
    getpinfo_module_init {| dir_name := "getpinfo"; file_name := "call" |}
      sample_limits (Some 1%positive) None {| dir := None; file := None |} ∅
    = (- ENODEV, g', t') /\
    t' !! 1%positive = Some (Directory "getpinfo" None) /\
    t' <> ∅ /\
    forall x, x <> 1%positive -> t' !! x = (∅ : tree) !! x.
Proof.
  destruct (failed_load_leaves_directory
              {| dir_name := "getpinfo"; file_name := "call" |} sample_limits
              1%positive None {| dir := None; file := None |} (∅ : tree))
    as [_ Hfile].
  - reflexivity.
  - exact Hfile.
Defined.

(** X15.  Unloading in a reachable state frees the response buffer exactly
    when a session is pending: with the slot occupied the one block handed
    to [kfree] is the buffer of [MAX_RESP] bytes a submit allocated; with
    the slot empty nothing is freed. *)
Theorem unload_frees_pending_buffer L g w t :
  reachable L w ->
  match call_task w with
  | Some _ =>
      exists b, respbuf w = Some b /\ length b = MAX_RESP L /\
                snd (getpinfo_module_exit g w t) = [b]
  | None => snd (getpinfo_module_exit g w t) = []
  end.
Proof.
  intros Hreach.
  pose proof (reachable_slot_inv L w Hreach) as Hinv. unfold slot_inv in Hinv.
  pose proof (reachable_buffer_size L w) as Hsize.
  unfold getpinfo_module_exit. cbv zeta.
  destruct (call_task w), (respbuf w) as [b|]; try contradiction.
  - exists b. split; [reflexivity|]. split; [now apply Hsize | reflexivity].
  - reflexivity.
Qed.

Lemma unload_frees_pending_buffer_witness :
  let b := lit "Failed: invalid operation\n" ++ replicate 973 "x"%char in
  let w := occupied_by task_A b loaded in
  match call_task w with
  | Some _ =>
      exists b', respbuf w = Some b' /\ length b' = MAX_RESP sample_limits /\
                 snd (getpinfo_module_exit {| dir := None; file := None |} w ∅) = [b']
  | None => snd (getpinfo_module_exit {| dir := None; file := None |} w ∅) = []
  end.
Proof.
  intros b w.
  apply (unload_frees_pending_buffer sample_limits {| dir := None; file := None |} w ∅).
  sample_occupied.
Defined.
